(** * dijkstra_graph_manipulation: the adjacency-list graph and its algorithms

    A shallow embedding of [src/connection.py] and [src/graph.py].

    - Python integers are [Z]; node identifiers and edge weights are
      Python integers.
    - The adjacency mapping [self._graph] is a Python [dict]: iteration
      follows key insertion order, so it is embedded as an association
      list with the write discipline of a dict (an existing key is
      updated in place, a new key goes to the end).
    - Exceptions are values of [exn]; a method of [Graph] that mutates
      the object is a state transformer that also returns [Ok] or
      [Raise], and whatever was mutated before a [Raise] stays mutated.
    - The claims are numbered C1 to C10; each theorem names its claim.
      The further properties at the end are numbered X1 to X14. *)

From stdpp Require Import list strings.
From Stdlib Require Import ZArith Lia Sorted Ascii DecimalString DecimalPos DecimalZ.

Local Open Scope Z_scope.

(** ** Exceptions and results *)

(** The four messages with which [graph.py] raises [GraphException]. *)
Inductive graph_error : Type :=
  | InvalidEdgeArity (connection : list Z)
  | NegativeDistance (node1 node2 distance : Z)
  | NodeNotFound (node : Z)
  | InvalidDegree (node : Z) (len : nat).

Inductive exn : Type :=
  | GraphException (e : graph_error)
  | KeyError (key : Z)
  | IndexError
  | ValueError
  | OverflowError
  | TypeError
  | NameError (name : string)
  | NotImplementedError.

Inductive res (A : Type) : Type :=
  | Ok (a : A)
  | Raise (e : exn).
Arguments Ok {A} a.
Arguments Raise {A} e.

#[global] Instance res_ret : MRet res := λ A a, Ok a.
#[global] Instance res_bind : MBind res := λ A B f m,
  match m with
  | Ok a => f a
  | Raise e => Raise e
  end.

(** A [for] loop whose body may raise, threading the loop-carried value. *)
Fixpoint for_fold {A B : Type} (body : B → A → res B) (acc : B) (l : list A)
  : res B :=
  match l with
  | [] => Ok acc
  | x :: l' => acc' ← body acc x; for_fold body acc' l'
  end.

(** ** Python lists *)

(** [l[i]] accepts [-len(l) <= i < len(l)]; a negative index counts from
    the end; anything else is an [IndexError]. *)
Definition list_index {A : Type} (l : list A) (i : Z) : res nat :=
  let n := Z.of_nat (length l) in
  if decide (0 ≤ i < n) then Ok (Z.to_nat i)
  else if decide (- n ≤ i < 0) then Ok (Z.to_nat (n + i))
  else Raise IndexError.

Definition list_getitem {A : Type} (l : list A) (i : Z) : res A :=
  p ← list_index l i;
  match l !! p with
  | Some x => Ok x
  | None => Raise IndexError
  end.

Definition list_setitem {A : Type} (l : list A) (i : Z) (v : A) : res (list A) :=
  p ← list_index l i;
  Ok (<[p:=v]> l).

(** [range(n)] *)
Definition range (n : nat) : list Z := Z.of_nat <$> seq 0 n.

(** [l.remove(x)]: drops the first element equal to [x], [ValueError]
    when there is none. *)
Fixpoint list_remove {A : Type} `{EqDecision A} (x : A) (l : list A)
  : res (list A) :=
  match l with
  | [] => Raise ValueError
  | y :: l' =>
      if decide (y = x) then Ok l'
      else l'' ← list_remove x l'; Ok (y :: l'')
  end.

(** ** Python dicts keyed by integers *)

Definition dict (V : Type) : Type := list (Z * V).

Fixpoint dict_get {V : Type} (k : Z) (d : dict V) : option V :=
  match d with
  | [] => None
  | (k', v) :: d' => if decide (k' = k) then Some v else dict_get k d'
  end.

(** [k in d] *)
Definition dict_mem {V : Type} (k : Z) (d : dict V) : bool :=
  match dict_get k d with
  | Some _ => true
  | None => false
  end.

(** [d[k] = v] *)
Fixpoint dict_set {V : Type} (k : Z) (v : V) (d : dict V) : dict V :=
  match d with
  | [] => [(k, v)]
  | (k', v') :: d' =>
      if decide (k' = k) then (k, v) :: d' else (k', v') :: dict_set k v d'
  end.

(** [del d[k]] (the caller checks membership) *)
Fixpoint dict_del {V : Type} (k : Z) (d : dict V) : dict V :=
  match d with
  | [] => []
  | (k', v') :: d' =>
      if decide (k' = k) then d' else (k', v') :: dict_del k d'
  end.

(** The keys in iteration order, as [for k in d] yields them. *)
Definition dict_keys {V : Type} (d : dict V) : list Z := d.*1.

(** ** Floats as they occur in [graph.py]

    The only float is [float('inf')].  A distance estimate is either that
    or a Python integer. *)
Inductive num : Type :=
  | Inf
  | Int (z : Z).

#[global] Instance num_eq_dec : EqDecision num.
Proof. solve_decision. Defined.

(** [inf + w] converts the integer [w] to a double first; the conversion
    rounds to nearest-even and raises [OverflowError] once the rounded
    value leaves the double range, that is from [2^1024 - 2^970] on. *)
Definition float_overflow (w : Z) : bool :=
  bool_decide (2 ^ 1024 - 2 ^ 970 ≤ Z.abs w).

Definition num_add (x : num) (w : Z) : res num :=
  match x with
  | Int z => Ok (Int (z + w))
  | Inf => if float_overflow w then Raise OverflowError else Ok Inf
  end.

(** [x < y]; Python compares an integer and a float exactly. *)
Definition num_lt (x y : num) : bool :=
  match x, y with
  | Int a, Int b => bool_decide (a < b)
  | Int _, Inf => true
  | Inf, _ => false
  end.

(** ** connection.py *)

Module Connection.

Record t : Type := mk { node : Z; distance : Z }.

(** [__eq__] compares the instance dictionaries, that is both fields. *)
#[global] Instance eq_dec : EqDecision t.
Proof. solve_decision. Defined.

(** What a name can be bound to at module level in [connection.py]. *)
Inductive pyobj : Type :=
  | PyInt (z : Z)
  | PyClass (name : string).

(** The module's global names: the [class] statement is the only
    binding in the file. *)
Definition module_globals : list (string * pyobj) :=
  [("Connection"%string, PyClass "Connection")].

(** A name that is not assigned in the function body is looked up in
    the module's globals (no builtin is called [distance] or [node]). *)
Definition load_global (name : string) : res pyobj :=
  match list_find (λ b, b.1 = name) module_globals with
  | Some (_, (_, v)) => Ok v
  | None => Raise (NameError name)
  end.

Definition py_add (x : Z) (y : pyobj) : res Z :=
  match y with
  | PyInt z => Ok (x + z)
  | PyClass _ => Raise TypeError
  end.

(** [hash_code]: the body reads the bare names [distance] and [node],
    not [self.distance] and [self.node]. *)
Definition hash_code (self : t) : res Z :=
  let prime := 31 in
  let result := 1 in
  distance ← load_global "distance";
  result ← py_add (prime * result) distance;
  node ← load_global "node";
  result ← py_add (prime * result) node;
  Ok result.

(** ["%d" % z] for an integer [z]: its decimal digits, after a minus
    sign when it is negative. *)
Definition format_d (z : Z) : string := NilZero.string_of_int (Z.to_int z).

(** [__str__] *)
Definition str (self : t) : string :=
  "< Node: " +:+ format_d (node self) +:+ ", Distance: "
  +:+ format_d (distance self) +:+ " >".

(** [__repr__], the same format string. *)
Definition repr (self : t) : string :=
  "< Node: " +:+ format_d (node self) +:+ ", Distance: "
  +:+ format_d (distance self) +:+ " >".

End Connection.

Abbreviation conn := Connection.t.

(** ** graph.py *)

Module Graph.

(** [self._graph]: node identifier to that node's list of connections. *)
Definition t : Type := dict (list conn).

(** A method that may mutate [self._graph] and may raise. *)
Definition M (A : Type) : Type := t → t * res A.

#[global] Instance M_ret : MRet M := λ A a g, (g, Ok a).
#[global] Instance M_bind : MBind M := λ A B f m g,
  match m g with
  | (g', Ok a) => f a g'
  | (g', Raise e) => (g', Raise e)
  end.

Definition raise {A : Type} (e : exn) : M A := λ g, (g, Raise e).

(** A pure computation that may raise, run inside a method. *)
Definition lift {A : Type} (r : res A) : M A := λ g, (g, r).

(** [k in self._graph] *)
Definition contains (k : Z) : M bool := λ g, (g, Ok (dict_mem k g)).

(** [self._graph[k]] *)
Definition getitem (k : Z) : M (list conn) := λ g,
  match dict_get k g with
  | Some l => (g, Ok l)
  | None => (g, Raise (KeyError k))
  end.

(** [self._graph[k] = l] *)
Definition setitem (k : Z) (l : list conn) : M unit := λ g,
  (dict_set k l g, Ok ()).

(** [del(self._graph[k])] *)
Definition delitem (k : Z) : M unit := λ g,
  match dict_get k g with
  | Some _ => (dict_del k g, Ok ())
  | None => (g, Raise (KeyError k))
  end.

(** [self._graph[k].append(c)] *)
Definition append (k : Z) (c : conn) : M unit :=
  l ← getitem k; setitem k (l ++ [c]).

(** [for x in l: body(x)] inside a method. *)
Fixpoint for_each {A : Type} (body : A → M unit) (l : list A) : M unit :=
  match l with
  | [] => mret ()
  | x :: l' => body x ;; for_each body l'
  end.

(** [add_edge(node1, node2, distance)] *)
Definition add_edge (node1 node2 distance : Z) : M unit :=
  if decide (distance < 0)
  then raise (GraphException (NegativeDistance node1 node2 distance))
  else
    present ← contains node1;
    (if negb present then setitem node1 [] else mret ()) ;;
    append node1 (Connection.mk node2 distance) ;;
    (* also add the reverse connection *)
    present ← contains node2;
    (if negb present then setitem node2 [] else mret ()) ;;
    append node2 (Connection.mk node1 distance).

(** [Graph(connections)]: [None] stands for the default argument. *)
Definition init (connections : option (list (list Z))) : M unit :=
  match connections with
  | None => mret ()
  | Some connections =>
      for_each (λ connection : list Z,
        match connection with
        | [c0; c1; c2] => add_edge c0 c1 c2
        | _ => raise (GraphException (InvalidEdgeArity connection))
        end) connections
  end.

(** The object a successful [Graph(connections)] evaluates to; a
    constructor that raises yields no object. *)
Definition new (connections : option (list (list Z))) : res t :=
  match init connections [] with
  | (g, Ok _) => Ok g
  | (_, Raise e) => Raise e
  end.

(** [get_connections()]: the rows [[node, edge.node, edge.distance]].
    The outer loop runs over the keys in dict order, and
    [self._graph[node]] is the list stored with the key. *)
Definition get_connections (g : t) : list (Z * Z * Z) :=
  let connections := [] in
  foldl (λ connections '(node, edges),
           foldl (λ connections edge,
                    connections ++
                      [(node, Connection.node edge, Connection.distance edge)])
                 connections edges)
        connections g.

(** The inner loop of [contract_node_with_two_edges],
    [for inv_connection in edges: if inv_connection.node == node:
    edges.remove(inv_connection)], on the list object [edges] that it
    mutates while iterating.  The list iterator keeps a position [idx]:
    it stops when [idx] is past the current end, otherwise yields
    [edges[idx]] and advances.  Every round advances [idx] and no round
    lengthens the list, so [fuel = len(edges) - idx] rounds exhaust it. *)
Fixpoint strip (fuel : nat) (node : Z) (edges : list conn) (idx : nat)
  : res (list conn) :=
  match fuel with
  | O => Ok edges
  | S fuel =>
      match edges !! idx with
      | None => Ok edges
      | Some inv_connection =>
          if decide (Connection.node inv_connection = node)
          then edges' ← list_remove inv_connection edges;
               strip fuel node edges' (S idx)
          else strip fuel node edges (S idx)
      end
  end.

(** The body of the outer loop of [contract_node_with_two_edges]: one
    pass over the edge list of the neighbour [connection.node].  The
    list is mutated in place, so the dict holds the result of the pass. *)
Definition remove_back_edges (node : Z) (connection : conn) : M unit :=
  edges ← getitem (Connection.node connection);
  edges' ← lift (strip (length edges) node edges 0);
  setitem (Connection.node connection) edges'.

(** [contract_node_with_two_edges(node)] *)
Definition contract_node_with_two_edges (node : Z) : M unit :=
  present ← contains node;
  if negb present then raise (GraphException (NodeNotFound node))
  else
    edges ← getitem node;
    if negb (bool_decide (length edges = 2%nat))
    then raise (GraphException (InvalidDegree node (length edges)))
    else
      connections ← getitem node;
      (* remove node from graph *)
      delitem node ;;
      for_each (remove_back_edges node) connections ;;
      (* add new edge bypassing the given node *)
      c0 ← lift (list_getitem connections 0);
      c1 ← lift (list_getitem connections 1);
      add_edge (Connection.node c0) (Connection.node c1)
               (Connection.distance c0 + Connection.distance c1).

(** One round of the inner loop of [dijkstra_version_1]. *)
Definition relax (i : Z) (D : list num) (connection : conn)
  : res (list num) :=
  di ← list_getitem D i;
  s ← num_add di (Connection.distance connection);
  dj ← list_getitem D (Connection.node connection);
  if num_lt s dj
  then
    di ← list_getitem D i;
    s ← num_add di (Connection.distance connection);
    list_setitem D (Connection.node connection) s
  else Ok D.

(** One round of the outer loop, on the pair of arrays [(D, tight)]. *)
Definition sweep (g : t) (st : list num * list bool) (i : Z)
  : res (list num * list bool) :=
  tight ← list_setitem st.2 i true;
  edges ← match dict_get i g with
          | Some l => Ok l
          | None => Raise (KeyError i)
          end;
  D ← for_fold (relax i) st.1 edges;
  Ok (D, tight).

(** [dijkstra_version_1(node1, node2)]; it only reads the graph. *)
Definition dijkstra_version_1 (node1 node2 : Z) (g : t) : res num :=
  if negb (dict_mem node1 g)
  then Raise (GraphException (NodeNotFound node1))
  else if negb (dict_mem node2 g)
  then Raise (GraphException (NodeNotFound node2))
  else
    let D := replicate (length g) Inf in
    D ← list_setitem D node1 (Int 0);
    let tight := replicate (length g) false in
    st ← for_fold (sweep g) (D, tight) (range (length tight));
    list_getitem st.1 node2.

(** [dijkstra_version_2(node1, node2)]: the body is a single [raise];
    everything before it is commented out. *)
Definition dijkstra_version_2 (node1 node2 : Z) (g : t) : res num :=
  Raise NotImplementedError.

(** [dijkstra(node1, node2)] *)
Definition dijkstra (node1 node2 : Z) (g : t) : res num :=
  dijkstra_version_2 node1 node2 g.

End Graph.

(** The edge list of the [__main__] block of [graph.py]. *)
Definition demo_edges : list (list Z) :=
  [ [0; 1; 4]; [0; 3; 2]; [1; 2; 5]; [1; 3; 1]; [2; 3; 8];
    [2; 4; 1]; [2; 5; 6]; [3; 4; 9]; [4; 5; 3] ].

Definition demo_graph : Graph.t := (Graph.init (Some demo_edges) []).1.

(** ** Vocabulary of the properties *)

(** The edge sequence stored for [k]; empty when [k] is not a key. *)
Definition adj (g : Graph.t) (k : Z) : list conn := default [] (dict_get k g).

(** The weights of the stored half-edges of a sequence that lead to [x],
    in sequence order. *)
Definition weights_to (x : Z) (l : list conn) : list Z :=
  Connection.distance <$> filter (λ c, Connection.node c = x) l.

(** The edges of a sequence that do not lead to [x]. *)
Definition others (x : Z) (l : list conn) : list conn :=
  filter (λ c, Connection.node c ≠ x) l.

(** Appending one half-edge to the sequence of [k], creating the entry
    when [k] is new. *)
Definition add_half (k : Z) (c : conn) (g : Graph.t) : Graph.t :=
  dict_set k (adj g k ++ [c]) g.

(** The graph once [node] is deleted and the edges to it are gone from
    the sequences of [A] and [B]. *)
Definition stripped (node A B : Z) (g : Graph.t) : Graph.t :=
  dict_set B (others node (adj g B))
    (dict_set A (others node (adj g A)) (dict_del node g)).

(** Exactly one of the edges to [node] of [before] is missing from
    [after]. *)
Definition one_back_edge_removed (node : Z) (before after : list conn) : Prop :=
  length (weights_to node before) = S (length (weights_to node after)).

(** Two parallel edges between 0 and 1 with an edge from 1 to 9 added in
    between, and what contracting 0 leaves. *)
Definition twin_edges : list (list Z) := [ [0; 1; 2]; [1; 9; 1]; [0; 1; 3] ].

Definition twin_graph : Graph.t :=
  [(0, [Connection.mk 1 2; Connection.mk 1 3]);
   (1, [Connection.mk 0 2; Connection.mk 9 1; Connection.mk 0 3]);
   (9, [Connection.mk 1 1])].

Definition twin_graph_contracted : Graph.t :=
  [(1, [Connection.mk 9 1; Connection.mk 1 5; Connection.mk 1 5]);
   (9, [Connection.mk 1 1])].

(** The undirected-pairing invariant as the data model words it. *)
Definition undirected (g : Graph.t) : Prop :=
  ∀ u v w l,
    dict_get u g = Some l → Connection.mk v w ∈ l →
    ∃ l', dict_get v g = Some l' ∧ Connection.mk u w ∈ l'.

(** The invariant that the operations maintain: keys are unique, the
    half-edges [u → v] and [v → u] carry the same weights with the same
    multiplicities, the halves of self-loops come in twos, and no weight
    is negative. *)
Record graph_ok (g : Graph.t) : Prop := {
  ok_keys : NoDup (dict_keys g);
  ok_paired : ∀ u v, weights_to v (adj g u) ≡ₚ weights_to u (adj g v);
  ok_loops : ∀ u, Nat.Even (length (weights_to u (adj g u)));
  ok_weights : ∀ k c, c ∈ adj g k → 0 ≤ Connection.distance c
}.

(** The graphs a caller can hold: a constructed one, and whatever
    [add_edge] and [contract_node_with_two_edges] leave behind, whether
    they return or raise. *)
Inductive reachable : Graph.t → Prop :=
  | reach_new connections g :
      Graph.new connections = Ok g → reachable g
  | reach_add_edge g node1 node2 distance :
      reachable g → reachable (Graph.add_edge node1 node2 distance g).1
  | reach_contract g node :
      reachable g → reachable (Graph.contract_node_with_two_edges node g).1.

(** The rows of one node, in the order of its edge sequence. *)
Definition rows_of (node : Z) (edges : list conn) : list (Z * Z * Z) :=
  (λ edge, (node, Connection.node edge, Connection.distance edge)) <$> edges.

(** Rows listed by ascending source node. *)
Definition ascending_by_node (rows : list (Z * Z * Z)) : Prop :=
  StronglySorted Z.le ((λ r, r.1.1) <$> rows).

(** The keys that [add_edge(node1, node2, _)] creates, in creation order. *)
Definition fresh_keys (node1 node2 : Z) (g : Graph.t) : list Z :=
  (if dict_mem node1 g then [] else [node1]) ++
  (if dict_mem node2 g || bool_decide (node2 = node1) then [] else [node2]).

(** The exceptions that the sweep of [dijkstra_version_1] can raise once
    the two membership tests have passed. *)
Definition sweep_error (e : exn) : Prop :=
  e = IndexError ∨ e = OverflowError ∨ ∃ k, e = KeyError k.

(** The node identifiers are [0 .. len(g) - 1]. *)
Definition dense (g : Graph.t) : Prop :=
  ∀ i, i ∈ dict_keys g ↔ 0 ≤ i < Z.of_nat (length g).

(** ** Vocabulary of the further properties *)

(** An edge record the constructor accepts: three integers, the last
    one not negative. *)
Definition well_formed_record (connection : list Z) : Prop :=
  ∃ node1 node2 distance,
    connection = [node1; node2; distance] ∧ 0 ≤ distance.

(** The two rows that [get_connections] shows for one edge record. *)
Definition both_rows (connection : list Z) : list (Z * Z * Z) :=
  match connection with
  | [node1; node2; distance] =>
      [(node1, node2, distance); (node2, node1, distance)]
  | _ => []
  end.

(** [walk g s v z]: the stored half-edges of [g] lead from [s] to [v]
    along a route of total weight [z]. *)
Inductive walk (g : Graph.t) (s : Z) : Z → Z → Prop :=
  | walk_start : s ∈ dict_keys g → walk g s s 0
  | walk_edge v v' z w :
      walk g s v z → Connection.mk v' w ∈ adj g v → walk g s v' (z + w).

(** What the array [D] of [dijkstra_version_1] satisfies throughout the
    sweep from [s]: one entry per key, the entry of [s] is 0, and every
    finite entry is the weight of a route from [s]. *)
Definition estimates (g : Graph.t) (s : Z) (D : list num) : Prop :=
  length D = length g
  ∧ D !! Z.to_nat s = Some (Int 0)
  ∧ ∀ j z, D !! j = Some (Int z) → walk g s (Z.of_nat j) z.

(** [x <= y] on distance estimates, [inf] on top. *)
Definition num_le (x y : num) : Prop :=
  match x, y with
  | _, Inf => True
  | Int a, Int b => a ≤ b
  | Inf, Int _ => False
  end.

(** [D'] has the entries of [D], none of them larger. *)
Definition lowered (D' D : list num) : Prop :=
  ∀ j x, D !! j = Some x → ∃ x', D' !! j = Some x' ∧ num_le x' x.

(** [ascending g s m v z]: a route of stored half-edges from [s] to [v]
    of total weight [z] on which the nodes that are left, [s] first, have
    larger and larger identifiers, all of them below [m].  The sweep of
    [dijkstra_version_1] relaxes the edges of such a route in the order
    of the route. *)
Inductive ascending (g : Graph.t) (s : Z) : Z → Z → Z → Prop :=
  | asc_start m : ascending g s m s 0
  | asc_edge m u v z w :
      ascending g s u u z → u < m → Connection.mk v w ∈ adj g u →
      ascending g s m v (z + w).

(** The entries of [D] are at most the weights of the ascending routes
    from [s] on which the nodes that are left are below [m]. *)
Definition bounds_routes (g : Graph.t) (s m : Z) (D : list num) : Prop :=
  ∀ v z, ascending g s m v z →
         ∃ z', D !! Z.to_nat v = Some (Int z') ∧ z' ≤ z.

(** The character [c] occurs in the string [s]. *)
Fixpoint occurs (c : ascii) (s : string) : bool :=
  match s with
  | EmptyString => false
  | String a s' => Ascii.eqb a c || occurs c s'
  end.

(** ** The result monads *)

Lemma res_bind_ok {A B} (m : res A) (f : A → res B) b :
  m ≫= f = Ok b ↔ ∃ a, m = Ok a ∧ f a = Ok b.
Proof.
  destruct m as [a|e]; simpl; split.
  - eauto.
  - by intros (a' & [= <-] & ?).
  - done.
  - by intros (a' & ? & ?).
Qed.

Lemma res_bind_raise {A B} (m : res A) (f : A → res B) e :
  m ≫= f = Raise e ↔ m = Raise e ∨ ∃ a, m = Ok a ∧ f a = Raise e.
Proof.
  destruct m as [a|e']; simpl; split.
  - intros. right. eauto.
  - by intros [?|(a' & [= <-] & ?)].
  - intros [= ->]. by left.
  - by intros [[= ->]|(a' & ? & ?)].
Qed.

Lemma for_fold_raise {A B} (P : exn → Prop) (body : B → A → res B) l :
  (∀ acc x e, body acc x = Raise e → P e) →
  ∀ acc e, for_fold body acc l = Raise e → P e.
Proof.
  intros Hbody. induction l as [|x l IH]; intros acc e; simpl; [done|].
  intros [H|(acc' & _ & H)]%res_bind_raise; eauto.
Qed.

(** ** Dicts *)

Section dict_facts.
Context {V : Type}.
Implicit Types (d : dict V) (k : Z) (v : V).

Lemma dict_get_set_eq k v d : dict_get k (dict_set k v d) = Some v.
Proof.
  induction d as [|[k' v'] d IH]; simpl.
  - by rewrite decide_True.
  - destruct (decide (k' = k)) as [->|Hne]; simpl.
    + by rewrite decide_True.
    + by rewrite decide_False.
Qed.

Lemma dict_get_set_ne k k' v d :
  k ≠ k' → dict_get k' (dict_set k v d) = dict_get k' d.
Proof.
  intros Hne. induction d as [|[k0 v0] d IH]; simpl.
  - by rewrite decide_False.
  - destruct (decide (k0 = k)) as [->|Hne0]; simpl.
    + by rewrite !decide_False.
    + by rewrite IH.
Qed.

Lemma dict_set_set k v v' d : dict_set k v (dict_set k v' d) = dict_set k v d.
Proof.
  induction d as [|[k0 v0] d IH]; simpl.
  - by rewrite decide_True.
  - destruct (decide (k0 = k)) as [->|Hne0]; simpl.
    + by rewrite decide_True.
    + by rewrite decide_False, IH.
Qed.

Lemma dict_get_keys k d : is_Some (dict_get k d) ↔ k ∈ dict_keys d.
Proof.
  unfold dict_keys. induction d as [|[k0 v0] d IH]; simpl.
  - split; [by intros [? ?] | by intros ?%elem_of_nil].
  - rewrite elem_of_cons. destruct (decide (k0 = k)) as [->|Hne0].
    + split; eauto.
    + rewrite IH. split; [auto | by intros [->|?]].
Qed.

Lemma dict_get_None k d : dict_get k d = None ↔ k ∉ dict_keys d.
Proof. rewrite <- dict_get_keys, eq_None_not_Some. done. Qed.

Lemma dict_mem_keys k d : dict_mem k d = true ↔ k ∈ dict_keys d.
Proof.
  rewrite <- dict_get_keys. unfold dict_mem.
  destruct (dict_get k d); split; intros H; try done; eauto; by destruct H.
Qed.

Lemma dict_keys_set k v d :
  dict_keys (dict_set k v d)
  = if dict_mem k d then dict_keys d else dict_keys d ++ [k].
Proof.
  unfold dict_keys, dict_mem. induction d as [|[k0 v0] d IH]; [done|].
  cbn [dict_set dict_get].
  destruct (decide (k0 = k)) as [->|Hne0]; [done|].
  rewrite fmap_cons, IH. by destruct (dict_get k d).
Qed.

Lemma dict_get_del_ne k k' d :
  k ≠ k' → dict_get k' (dict_del k d) = dict_get k' d.
Proof.
  intros Hne. induction d as [|[k0 v0] d IH]; simpl; [done|].
  destruct (decide (k0 = k)) as [->|Hne0]; simpl.
  - by rewrite decide_False.
  - by rewrite IH.
Qed.

Lemma dict_get_del_eq k d :
  NoDup (dict_keys d) → dict_get k (dict_del k d) = None.
Proof.
  unfold dict_keys. induction d as [|[k0 v0] d IH]; simpl; [done|].
  intros Hnd. apply NoDup_cons in Hnd as [Hk0 Hnd].
  destruct (decide (k0 = k)) as [->|Hne0]; simpl.
  - by apply dict_get_None.
  - rewrite decide_False by done. auto.
Qed.

Lemma dict_keys_del k d :
  NoDup (dict_keys d) →
  dict_keys (dict_del k d) = filter (λ k', k' ≠ k) (dict_keys d).
Proof.
  unfold dict_keys. induction d as [|[k0 v0] d IH]; simpl; [done|].
  intros Hnd. apply NoDup_cons in Hnd as [Hk0 Hnd].
  destruct (decide (k0 = k)) as [->|Hne0]; simpl.
  - rewrite filter_cons_False by naive_solver.
    clear IH Hnd. induction d as [|[k1 v1] d IH]; simpl; [done|].
    apply not_elem_of_cons in Hk0 as [? ?].
    rewrite filter_cons_True by done. f_equal; auto.
  - rewrite filter_cons_True by done. simpl. f_equal; auto.
Qed.

Lemma dict_keys_set_NoDup k v d :
  NoDup (dict_keys d) → NoDup (dict_keys (dict_set k v d)).
Proof.
  intros Hnd. rewrite dict_keys_set.
  destruct (dict_mem k d) eqn:Hm; [done|].
  apply NoDup_app. split_and!; [done| |apply NoDup_singleton].
  intros x Hx ->%list_elem_of_singleton.
  apply dict_mem_keys in Hx. congruence.
Qed.

Lemma dict_keys_del_NoDup k d :
  NoDup (dict_keys d) → NoDup (dict_keys (dict_del k d)).
Proof. intros Hnd. rewrite dict_keys_del by done. by apply NoDup_filter. Qed.

End dict_facts.

(** ** Edge sequences *)

Lemma adj_get g k l : dict_get k g = Some l → adj g k = l.
Proof. unfold adj. by intros ->. Qed.

Lemma adj_set_eq g k l : adj (dict_set k l g) k = l.
Proof. unfold adj. by rewrite dict_get_set_eq. Qed.

Lemma adj_set_ne g k k' l : k ≠ k' → adj (dict_set k l g) k' = adj g k'.
Proof. intros. unfold adj. by rewrite dict_get_set_ne. Qed.

Lemma adj_del_ne g k k' : k ≠ k' → adj (dict_del k g) k' = adj g k'.
Proof. intros. unfold adj. by rewrite dict_get_del_ne. Qed.

Lemma adj_del_eq g k : NoDup (dict_keys g) → adj (dict_del k g) k = [].
Proof. intros. unfold adj. by rewrite dict_get_del_eq. Qed.

Lemma adj_add_half g k c k' :
  adj (add_half k c g) k' = adj g k' ++ (if decide (k' = k) then [c] else []).
Proof.
  unfold add_half. destruct (decide (k' = k)) as [->|Hne].
  - by rewrite adj_set_eq.
  - rewrite adj_set_ne by done. by rewrite app_nil_r.
Qed.

Lemma dict_keys_add_half g k c :
  dict_keys (add_half k c g)
  = dict_keys g ++ (if dict_mem k g then [] else [k]).
Proof.
  unfold add_half. rewrite dict_keys_set.
  destruct (dict_mem k g); by rewrite ?app_nil_r.
Qed.

Lemma dict_mem_add_half g k c k' :
  dict_mem k' (add_half k c g) = dict_mem k' g || bool_decide (k' = k).
Proof.
  unfold add_half, dict_mem. destruct (decide (k' = k)) as [->|Hne].
  - rewrite dict_get_set_eq, bool_decide_eq_true_2 by done.
    by rewrite orb_true_r.
  - rewrite dict_get_set_ne, bool_decide_eq_false_2 by done.
    by rewrite orb_false_r.
Qed.

(** ** [add_edge] *)

Ltac run_method :=
  cbv beta iota zeta delta
    [mbind mret Graph.M_bind Graph.M_ret Graph.contains Graph.setitem
     Graph.append Graph.getitem Graph.delitem Graph.raise Graph.lift].

(** The creation of the entry followed by the append is [add_half]. *)
Lemma append_after_ensure k c (g : Graph.t) :
  (present ← Graph.contains k;
   (if negb present then Graph.setitem k [] else mret ()) ;;
   Graph.append k c) g
  = (add_half k c g, Ok ()).
Proof.
  run_method. unfold add_half, adj, dict_mem.
  destruct (dict_get k g) as [l|] eqn:Hk; simpl.
  - by rewrite Hk.
  - by rewrite dict_get_set_eq, dict_set_set.
Qed.

Lemma add_edge_negative node1 node2 distance g :
  distance < 0 →
  Graph.add_edge node1 node2 distance g
  = (g, Raise (GraphException (NegativeDistance node1 node2 distance))).
Proof. intros. unfold Graph.add_edge. by rewrite decide_True. Qed.

Lemma add_edge_ok node1 node2 distance g :
  0 ≤ distance →
  Graph.add_edge node1 node2 distance g
  = (add_half node2 (Connection.mk node1 distance)
       (add_half node1 (Connection.mk node2 distance) g), Ok ()).
Proof.
  intros. unfold Graph.add_edge. rewrite decide_False by lia.
  pose proof (append_after_ensure node1 (Connection.mk node2 distance) g) as H1.
  pose proof (append_after_ensure node2 (Connection.mk node1 distance)
                (add_half node1 (Connection.mk node2 distance) g)) as H2.
  revert H1 H2. run_method.
  destruct (dict_mem node1 g); simpl; intros H1.
  - destruct (dict_get node1 g) as [l1|]; [|done].
    injection H1 as ->. done.
  - destruct (dict_get node1 (dict_set node1 [] g)) as [l1|]; [|done].
    injection H1 as ->. done.
Qed.

Lemma adj_add_edge node1 node2 distance g k :
  0 ≤ distance →
  adj (Graph.add_edge node1 node2 distance g).1 k
  = adj g k
    ++ (if decide (k = node1) then [Connection.mk node2 distance] else [])
    ++ (if decide (k = node2) then [Connection.mk node1 distance] else []).
Proof.
  intros. rewrite add_edge_ok by done. simpl.
  by rewrite !adj_add_half, <- app_assoc.
Qed.

Lemma dict_keys_add_edge node1 node2 distance g :
  0 ≤ distance →
  dict_keys (Graph.add_edge node1 node2 distance g).1
  = dict_keys g ++ fresh_keys node1 node2 g.
Proof.
  intros. rewrite add_edge_ok by done. simpl.
  rewrite !dict_keys_add_half, dict_mem_add_half, <- app_assoc. done.
Qed.

(** C4.  [add_edge] with a negative distance raises the negative-distance
    [GraphException] and leaves the adjacency mapping exactly as it was;
    with a distance that is not negative it returns, and then both halves
    are in: every edge sequence is the old one followed by the new
    half-edges of that node, and the only keys created are the endpoints
    that were new. *)
Theorem add_edge_atomic (g : Graph.t) (node1 node2 distance : Z) :
  (distance < 0 →
     Graph.add_edge node1 node2 distance g
     = (g, Raise (GraphException (NegativeDistance node1 node2 distance))))
  ∧ (0 ≤ distance →
     ∃ g', Graph.add_edge node1 node2 distance g = (g', Ok ())
       ∧ dict_keys g' = dict_keys g ++ fresh_keys node1 node2 g
       ∧ ∀ k, adj g' k
              = adj g k
                ++ (if decide (k = node1)
                    then [Connection.mk node2 distance] else [])
                ++ (if decide (k = node2)
                    then [Connection.mk node1 distance] else [])).
Proof.
  split; intros Hd.
  - by apply add_edge_negative.
  - eexists. split; [by apply add_edge_ok|]. split.
    + pose proof (dict_keys_add_edge node1 node2 distance g Hd) as Hk.
      by rewrite add_edge_ok in Hk.
    + intros k. pose proof (adj_add_edge node1 node2 distance g k Hd) as Ha.
      by rewrite add_edge_ok in Ha.
Qed.

Lemma add_edge_atomic_witness :
  Graph.add_edge 0 1 (-1) [(7, [])]
  = ([(7, [])], Raise (GraphException (NegativeDistance 0 1 (-1))))
  ∧ ∃ g', Graph.add_edge 0 1 4 [(7, [])] = (g', Ok ())
      ∧ dict_keys g' = [7; 0; 1]
      ∧ ∀ k, adj g' k
             = adj [(7, [])] k
               ++ (if decide (k = 0) then [Connection.mk 1 4] else [])
               ++ (if decide (k = 1) then [Connection.mk 0 4] else []).
Proof.
  split.
  - apply (proj1 (add_edge_atomic [(7, [])] 0 1 (-1))). lia.
  - apply (proj2 (add_edge_atomic [(7, [])] 0 1 4)). lia.
Defined.

(** ** [contract_node_with_two_edges]: the guards *)

Lemma contract_absent g node :
  dict_get node g = None →
  Graph.contract_node_with_two_edges node g
  = (g, Raise (GraphException (NodeNotFound node))).
Proof.
  intros Hg. unfold Graph.contract_node_with_two_edges. run_method.
  unfold dict_mem. by rewrite Hg.
Qed.

Lemma contract_bad_degree g node edges :
  dict_get node g = Some edges → length edges ≠ 2%nat →
  Graph.contract_node_with_two_edges node g
  = (g, Raise (GraphException (InvalidDegree node (length edges)))).
Proof.
  intros Hg Hlen. unfold Graph.contract_node_with_two_edges.
  run_method. unfold dict_mem. rewrite Hg. cbn [negb]. cbv beta.
  rewrite Hg. cbv beta iota. by rewrite bool_decide_eq_false_2.
Qed.

(** C7.  Contracting a node that is not in the graph raises the
    node-not-found [GraphException]; contracting a node whose edge
    sequence does not have exactly two entries raises the invalid-degree
    one; in both cases the graph is the one before the call. *)
Theorem contract_precondition (g : Graph.t) (node : Z) :
  (dict_get node g = None →
     Graph.contract_node_with_two_edges node g
     = (g, Raise (GraphException (NodeNotFound node))))
  ∧ (∀ edges, dict_get node g = Some edges → length edges ≠ 2%nat →
     Graph.contract_node_with_two_edges node g
     = (g, Raise (GraphException (InvalidDegree node (length edges))))).
Proof.
  split; [apply contract_absent|apply contract_bad_degree].
Qed.

Lemma contract_precondition_witness :
  Graph.contract_node_with_two_edges 9 demo_graph
  = (demo_graph, Raise (GraphException (NodeNotFound 9)))
  ∧ Graph.contract_node_with_two_edges 1 demo_graph
    = (demo_graph, Raise (GraphException (InvalidDegree 1 3))).
Proof.
  split.
  - by apply (proj1 (contract_precondition demo_graph 9)).
  - by apply (proj2 (contract_precondition demo_graph 1)
                [Connection.mk 0 4; Connection.mk 2 5; Connection.mk 3 1]).
Defined.

(** ** The shortest-path entry points *)

(** C1.  Whatever the graph and the pair of nodes, [dijkstra], which
    calls [dijkstra_version_2], returns no distance: it raises
    [NotImplementedError]. *)
Theorem dijkstra_not_implemented (g : Graph.t) (node1 node2 : Z) :
  Graph.dijkstra node1 node2 g = Raise NotImplementedError.
Proof. reflexivity. Qed.

(** C2.  On the graph of the demo edge list the entry point [dijkstra]
    raises [NotImplementedError] for the pair (2, 3) and the baseline
    [dijkstra_version_1] returns 8, although the route 2 → 1 → 3 of
    weight 5 + 1 = 6 is in the graph. *)
Theorem demo_query :
  Graph.new (Some demo_edges) = Ok demo_graph
  ∧ Graph.dijkstra 2 3 demo_graph = Raise NotImplementedError
  ∧ Graph.dijkstra_version_1 2 3 demo_graph = Ok (Int 8)
  ∧ Connection.mk 1 5 ∈ adj demo_graph 2
  ∧ Connection.mk 3 1 ∈ adj demo_graph 1.
Proof.
  split_and!; try by vm_compute.
  - vm_compute. apply list_elem_of_here.
  - vm_compute. do 2 apply list_elem_of_further. apply list_elem_of_here.
Qed.

(** ** [Connection.hash_code] *)

(** C9.  For every connection, [hash_code] returns no value: it raises
    [NameError] at the first bare name [distance]. *)
Theorem hash_code_raises (self : conn) :
  Connection.hash_code self = Raise (NameError "distance").
Proof. reflexivity. Qed.

(** ** [dijkstra_version_1] *)

Lemma list_index_raise {A} (l : list A) i e :
  list_index l i = Raise e → e = IndexError.
Proof. unfold list_index. repeat case_decide; congruence. Qed.

Lemma list_getitem_raise {A} (l : list A) i e :
  list_getitem l i = Raise e → e = IndexError.
Proof.
  unfold list_getitem.
  intros [H|(p & _ & H)]%res_bind_raise.
  - by eapply list_index_raise.
  - destruct (l !! p); congruence.
Qed.

Lemma list_setitem_raise {A} (l : list A) i v e :
  list_setitem l i v = Raise e → e = IndexError.
Proof.
  unfold list_setitem.
  intros [H|(p & _ & H)]%res_bind_raise; [by eapply list_index_raise|done].
Qed.

Lemma num_add_raise x w e : num_add x w = Raise e → e = OverflowError.
Proof.
  destruct x; simpl; [|done]. destruct (float_overflow w); congruence.
Qed.

Lemma relax_raise i D connection e :
  Graph.relax i D connection = Raise e → sweep_error e.
Proof.
  unfold Graph.relax, sweep_error.
  intros [H|(di & _ & H)]%res_bind_raise;
    [apply list_getitem_raise in H; auto|].
  apply res_bind_raise in H as [H|(s & _ & H)];
    [apply num_add_raise in H; auto|].
  apply res_bind_raise in H as [H|(dj & _ & H)];
    [apply list_getitem_raise in H; auto|].
  destruct (num_lt s dj); [|done].
  apply res_bind_raise in H as [H|(di' & _ & H)];
    [apply list_getitem_raise in H; auto|].
  apply res_bind_raise in H as [H|(s' & _ & H)];
    [apply num_add_raise in H; auto|].
  apply list_setitem_raise in H; auto.
Qed.

Lemma sweep_raise g st i e : Graph.sweep g st i = Raise e → sweep_error e.
Proof.
  unfold Graph.sweep.
  intros [H|(tight & _ & H)]%res_bind_raise;
    [apply list_setitem_raise in H; unfold sweep_error; auto|].
  apply res_bind_raise in H as [H|(edges & _ & H)].
  { destruct (dict_get i g); [done|]. injection H as <-.
    unfold sweep_error. eauto. }
  apply res_bind_raise in H as [H|(D & _ & H)]; [|done].
  revert H. apply for_fold_raise. intros ???. apply relax_raise.
Qed.

(** What [dijkstra_version_1] can raise, and when. *)
Lemma dijkstra_version_1_raise g node1 node2 e :
  Graph.dijkstra_version_1 node1 node2 g = Raise e →
  (e = GraphException (NodeNotFound node1) ∧ dict_mem node1 g = false)
  ∨ (e = GraphException (NodeNotFound node2) ∧ dict_mem node2 g = false)
  ∨ (dict_mem node1 g = true ∧ dict_mem node2 g = true ∧ sweep_error e).
Proof.
  unfold Graph.dijkstra_version_1.
  destruct (dict_mem node1 g); simpl; [|intros [= <-]; auto].
  destruct (dict_mem node2 g); simpl; [|intros [= <-]; auto].
  intros H. do 2 right. split_and!; [done..|].
  apply res_bind_raise in H as [H|(D & _ & H)];
    [apply list_setitem_raise in H; unfold sweep_error; auto|].
  apply res_bind_raise in H as [H|(st & _ & H)].
  - revert H. apply for_fold_raise. intros ???. apply sweep_raise.
  - apply list_getitem_raise in H. unfold sweep_error; auto.
Qed.

(** C3.  [dijkstra_version_1] raises a [GraphException] exactly when
    [node1] or [node2] is not a key of the graph, and that exception is
    the node-not-found one of the missing node; [dijkstra_version_2]
    tests nothing and raises [NotImplementedError] whether or not the
    nodes are in the graph. *)
Theorem node_not_found_precondition (g : Graph.t) (node1 node2 : Z) :
  ((∃ e, Graph.dijkstra_version_1 node1 node2 g = Raise (GraphException e))
     ↔ node1 ∉ dict_keys g ∨ node2 ∉ dict_keys g)
  ∧ (∀ e, Graph.dijkstra_version_1 node1 node2 g = Raise (GraphException e) →
          e = NodeNotFound node1 ∨ e = NodeNotFound node2)
  ∧ Graph.dijkstra_version_2 node1 node2 g = Raise NotImplementedError.
Proof.
  rewrite <- !dict_mem_keys. split_and!; [split| |done].
  - intros [e H]. apply dijkstra_version_1_raise in H
      as [[_ H]|[[_ H]|(_ & _ & [H|[H|[k H]]])]]; try done.
    + left. by rewrite H.
    + right. by rewrite H.
  - unfold Graph.dijkstra_version_1. intros [H|H].
    + destruct (dict_mem node1 g); [done|]. simpl. eauto.
    + destruct (dict_mem node1 g); simpl; [|eauto].
      destruct (dict_mem node2 g); [done|]. simpl. eauto.
  - intros e H. apply dijkstra_version_1_raise in H
      as [[[= ->] _]|[[[= ->] _]|(_ & _ & [H|[H|[k H]]])]]; auto; done.
Qed.

Lemma range_elem_of n i : i ∈ range n ↔ 0 ≤ i < Z.of_nat n.
Proof.
  unfold range. rewrite list_elem_of_fmap. split.
  - intros (j & -> & Hj%elem_of_seq). lia.
  - intros Hi. exists (Z.to_nat i). rewrite elem_of_seq. lia.
Qed.

Lemma range_NoDup n : NoDup (range n).
Proof.
  unfold range. apply NoDup_fmap_2; [apply Nat2Z.inj'|apply NoDup_seq].
Qed.

Lemma sweep_ok_keys g l :
  ∀ st st', for_fold (Graph.sweep g) st l = Ok st' →
            ∀ i, i ∈ l → i ∈ dict_keys g.
Proof.
  induction l as [|x l IH]; intros st st' H i Hi; [by apply elem_of_nil in Hi|].
  simpl in H. apply res_bind_ok in H as (st1 & Hx & H).
  apply elem_of_cons in Hi as [->|Hi]; [|by eapply IH].
  unfold Graph.sweep in Hx.
  apply res_bind_ok in Hx as (tight & _ & Hx).
  apply res_bind_ok in Hx as (edges & Hx & _).
  apply dict_get_keys. destruct (dict_get x g); [eauto|done].
Qed.

(** A returned distance means the sweep found every index of
    [range(len(g))] among the keys, and there are only [len(g)] keys. *)
Lemma dijkstra_version_1_ok_dense g node1 node2 d :
  Graph.dijkstra_version_1 node1 node2 g = Ok d → dense g.
Proof.
  unfold Graph.dijkstra_version_1.
  destruct (dict_mem node1 g); simpl; [|done].
  destruct (dict_mem node2 g); simpl; [|done].
  intros (D & _ & (st & Hsweep & _)%res_bind_ok)%res_bind_ok.
  rewrite length_replicate in Hsweep.
  pose proof (sweep_ok_keys _ _ _ _ Hsweep) as Hkeys.
  assert (range (length g) ≡ₚ dict_keys g) as Hperm.
  { apply submseteq_length_Permutation.
    - apply NoDup_submseteq; [apply range_NoDup|done].
    - unfold dict_keys, range. by rewrite !length_fmap, length_seq. }
  intros i. by rewrite <- Hperm, range_elem_of.
Qed.

(** C10.  When [dijkstra_version_1] returns a distance the keys of the
    graph are exactly [0 .. len(g) - 1]; and on the graph that the single
    call [add_edge(0, 5, 1)] builds, with both 0 and 5 in the graph, the
    query (0, 5) ends in [IndexError]. *)
Theorem dijkstra_version_1_needs_dense_ids :
  (∀ g node1 node2 d,
     Graph.dijkstra_version_1 node1 node2 g = Ok d → dense g)
  ∧ ∃ g, Graph.add_edge 0 5 1 [] = (g, Ok ())
       ∧ 0 ∈ dict_keys g ∧ 5 ∈ dict_keys g
       ∧ ¬ dense g
       ∧ Graph.dijkstra_version_1 0 5 g = Raise IndexError.
Proof.
  split; [apply dijkstra_version_1_ok_dense|].
  eexists. split; [reflexivity|].
  split_and!.
  - apply list_elem_of_here.
  - apply list_elem_of_further, list_elem_of_here.
  - intros H. specialize (H 5). simpl in H.
    assert (5 ∈ [0; 5]) as H5 by (apply list_elem_of_further, list_elem_of_here).
    apply H in H5. lia.
  - by vm_compute.
Qed.

Lemma dijkstra_version_1_needs_dense_ids_witness :
  Graph.dijkstra_version_1 2 3 demo_graph = Ok (Int 8) ∧ dense demo_graph.
Proof.
  assert (Graph.dijkstra_version_1 2 3 demo_graph = Ok (Int 8)) as H
    by (vm_compute; reflexivity).
  split; [exact H|].
  exact (proj1 dijkstra_version_1_needs_dense_ids demo_graph 2 3 (Int 8) H).
Defined.

(** ** Weights of the half-edges between two nodes *)

Lemma weights_to_app x l l' :
  weights_to x (l ++ l') = weights_to x l ++ weights_to x l'.
Proof. unfold weights_to. by rewrite filter_app, fmap_app. Qed.

Lemma weights_to_cons x c l :
  weights_to x (c :: l)
  = if decide (Connection.node c = x)
    then Connection.distance c :: weights_to x l else weights_to x l.
Proof. unfold weights_to. rewrite filter_cons. by case_decide. Qed.

Lemma elem_of_weights_to v w l : w ∈ weights_to v l ↔ Connection.mk v w ∈ l.
Proof.
  unfold weights_to. rewrite list_elem_of_fmap. split.
  - intros ([v' w'] & -> & [Hv ?]%list_elem_of_filter). simpl in Hv. by subst.
  - intros H. exists (Connection.mk v w). by rewrite list_elem_of_filter.
Qed.

Lemma others_app x l l' : others x (l ++ l') = others x l ++ others x l'.
Proof. unfold others. by rewrite filter_app. Qed.

Lemma weights_to_others v x l :
  weights_to v (others x l) = if decide (v = x) then [] else weights_to v l.
Proof.
  unfold weights_to, others. rewrite list_filter_filter.
  destruct (decide (v = x)) as [->|Hv].
  - induction l as [|c l IH]; [done|].
    rewrite filter_cons_False by (by intros [? ?]). done.
  - f_equal. apply list_filter_iff.
    intros c; split; [by intros [? _] | intros Hc; split; congruence].
Qed.

Lemma elem_of_others x c l : c ∈ others x l ↔ Connection.node c ≠ x ∧ c ∈ l.
Proof. unfold others. by rewrite list_elem_of_filter. Qed.

(** A sequence without edges to [x] is its own [others x]. *)
Lemma others_id x l : weights_to x l = [] → others x l = l.
Proof.
  unfold others. induction l as [|c l IH]; [done|].
  rewrite weights_to_cons. destruct (decide (Connection.node c = x)); [done|].
  intros Hl. rewrite filter_cons_True by done. f_equal; auto.
Qed.

(** ** The invariant *)

Lemma graph_ok_empty : graph_ok [].
Proof.
  split.
  - apply NoDup_nil_2.
  - done.
  - intros u. by exists 0%nat.
  - intros k c H. by apply elem_of_nil in H.
Qed.

Lemma graph_ok_undirected g : graph_ok g → undirected g.
Proof.
  intros Hok u v w l Hu Hin.
  assert (Connection.mk u w ∈ adj g v) as H.
  { apply elem_of_weights_to. rewrite <- (ok_paired g Hok u v).
    apply elem_of_weights_to. by rewrite (adj_get _ _ _ Hu). }
  unfold adj in H. destruct (dict_get v g) as [l'|]; simpl in H; [eauto|].
  by apply elem_of_nil in H.
Qed.

Lemma graph_ok_add_edge g node1 node2 distance :
  graph_ok g → graph_ok (Graph.add_edge node1 node2 distance g).1.
Proof.
  intros Hok. destruct (decide (distance < 0)) as [Hneg|Hpos].
  { by rewrite add_edge_negative. }
  assert (0 ≤ distance) as Hd by lia. clear Hpos.
  split.
  - rewrite add_edge_ok by done. simpl. unfold add_half.
    do 2 apply dict_keys_set_NoDup. apply Hok.
  - intros u v. rewrite !adj_add_edge, !weights_to_app by done.
    apply Permutation_app; [apply Hok|].
    repeat case_decide; simplify_eq; unfold weights_to; simpl;
      repeat (rewrite ?filter_cons, ?filter_nil; simpl; repeat case_decide);
      simplify_eq; done.
  - intros u. rewrite !adj_add_edge, !weights_to_app, !length_app by done.
    destruct (ok_loops g Hok u) as [n Hn]. rewrite Hn.
    repeat case_decide; simplify_eq; unfold weights_to; simpl;
      repeat (rewrite ?filter_cons, ?filter_nil; simpl; repeat case_decide);
      simplify_eq; simpl;
      first [by exists n; lia | by exists (S n); lia].
  - intros k c. rewrite adj_add_edge by done.
    rewrite !elem_of_app. intros [H|[H|H]].
    + by eapply ok_weights.
    + case_decide; [|by apply elem_of_nil in H].
      by apply list_elem_of_singleton in H as ->.
    + case_decide; [|by apply elem_of_nil in H].
      by apply list_elem_of_singleton in H as ->.
Qed.

(** ** Removing back-edges while iterating *)

Lemma list_remove_split {A} `{EqDecision A} (x : A) (l l' : list A) :
  list_remove x l = Ok l' ↔ ∃ l1 l2, l = l1 ++ x :: l2 ∧ l' = l1 ++ l2 ∧ x ∉ l1.
Proof.
  revert l'. induction l as [|y l IH]; intros l'; simpl.
  - split; [done|]. intros (l1 & l2 & Hl & _). by destruct l1.
  - destruct (decide (y = x)) as [->|Hne].
    + split.
      * intros [= <-]. exists [], l. split_and!; [done..|apply not_elem_of_nil].
      * intros (l1 & l2 & Hl & -> & Hx). destruct l1 as [|z l1].
        -- by injection Hl as ->.
        -- injection Hl as -> _. by apply not_elem_of_cons in Hx as [? _].
    + rewrite res_bind_ok. split.
      * intros (l'' & (l1 & l2 & -> & -> & Hx)%IH & [= <-]).
        exists (y :: l1), l2. split_and!; [done..|].
        apply not_elem_of_cons. auto.
      * intros (l1 & l2 & Hl & -> & Hx). destruct l1 as [|z l1].
        -- by injection Hl as ?.
        -- injection Hl as -> ->. apply not_elem_of_cons in Hx as [_ Hx].
           exists (l1 ++ l2). split; [|done]. apply IH. eauto.
Qed.

Lemma list_remove_elem_of {A} `{EqDecision A} (x : A) (l : list A) :
  x ∈ l → ∃ l', list_remove x l = Ok l'.
Proof.
  intros (l1 & l2 & -> & Hx)%list_elem_of_split_l.
  exists (l1 ++ l2). apply list_remove_split. eauto.
Qed.

(** Removing an edge to [x] leaves the other edges alone and takes one
    off the count of edges to [x]. *)
Lemma list_remove_back_edge x c l l' :
  Connection.node c = x → list_remove c l = Ok l' →
  others x l' = others x l
  ∧ length (weights_to x l) = S (length (weights_to x l')).
Proof.
  intros Hc (l1 & l2 & -> & -> & _)%list_remove_split. split.
  - rewrite !others_app. f_equal. unfold others.
    by rewrite filter_cons_False by (by intros ?).
  - rewrite !weights_to_app, weights_to_cons, decide_True by done.
    rewrite !length_app. simpl. lia.
Qed.

(** The pass never raises, keeps every edge that does not lead to [node]
    in place, and removes at least one edge to [node] if one lies at or
    after the iterator's position. *)
Lemma strip_spec node fuel :
  ∀ edges idx, ∃ edges',
    Graph.strip fuel node edges idx = Ok edges'
    ∧ others node edges' = others node edges
    ∧ (length (weights_to node edges') ≤ length (weights_to node edges))%nat
    ∧ ((∃ j c, (idx ≤ j)%nat ∧ edges !! j = Some c ∧ Connection.node c = node) →
       (length edges ≤ idx + fuel)%nat →
       (length (weights_to node edges') < length (weights_to node edges))%nat).
Proof.
  induction fuel as [|fuel IH]; intros edges idx; simpl.
  - exists edges. split_and!; [done..|].
    intros (j & c & Hj & Hc%lookup_lt_Some & _) Hlen. lia.
  - destruct (edges !! idx) as [inv|] eqn:Hidx.
    + destruct (decide (Connection.node inv = node)) as [Hinv|Hinv].
      * destruct (list_remove_elem_of inv edges) as [e1 He1];
          [by eapply list_elem_of_lookup_2|].
        rewrite He1. simpl.
        destruct (list_remove_back_edge node inv edges e1 Hinv He1) as [Ho Hn].
        destruct (IH e1 (S idx)) as (edges' & -> & Ho' & Hn' & _).
        exists edges'. split_and!; [done|congruence|lia|intros; lia].
      * destruct (IH edges (S idx)) as (edges' & -> & Ho' & Hn' & Hlt).
        exists edges'. split_and!; [done..|].
        intros (j & c & Hj & Hc & Hnode) Hlen. apply Hlt; [|lia].
        exists j, c. split_and!; [|done..].
        destruct (decide (j = idx)) as [->|?]; [congruence|lia].
    + exists edges. split_and!; [done..|].
      intros (j & c & Hj & Hc%lookup_lt_Some & _) _.
      apply lookup_ge_None in Hidx. lia.
Qed.

(** More fuel than [len(edges) - idx] changes nothing: the bound on the
    number of rounds is never what ends the loop. *)
Lemma strip_fuel node fuel :
  ∀ edges idx extra,
    (length edges ≤ idx + fuel)%nat →
    Graph.strip (fuel + extra) node edges idx = Graph.strip fuel node edges idx.
Proof.
  induction fuel as [|fuel IH]; intros edges idx extra Hlen; simpl.
  - destruct extra as [|extra]; simpl; [done|].
    by rewrite lookup_ge_None_2 by lia.
  - destruct (edges !! idx) as [inv|] eqn:Hidx; [|done].
    destruct (decide (Connection.node inv = node)) as [Hinv|Hinv].
    + destruct (list_remove inv edges) as [e1|e] eqn:He1; simpl; [|done].
      apply IH. apply list_remove_split in He1 as (l1 & l2 & -> & -> & _).
      rewrite length_app in *. simpl in Hlen. lia.
    + apply IH. lia.
Qed.

(** One whole pass over an edge sequence. *)
Lemma strip_pass node edges :
  ∃ edges',
    Graph.strip (length edges) node edges 0 = Ok edges'
    ∧ others node edges' = others node edges
    ∧ (length (weights_to node edges')
       ≤ length (weights_to node edges) - 1)%nat.
Proof.
  destruct (strip_spec node (length edges) edges 0)
    as (edges' & Hs & Ho & Hle & Hlt).
  exists edges'. split_and!; [done..|].
  destruct (weights_to node edges) as [|w ws] eqn:Hw; simpl in *; [lia|].
  assert (w ∈ weights_to node edges) as Hin by (rewrite Hw; apply list_elem_of_here).
  apply elem_of_weights_to, list_elem_of_lookup in Hin as [j Hj].
  assert (length (weights_to node edges') < S (length ws))%nat; [|lia].
  apply Hlt; [|lia]. exists j, (Connection.mk node w).
  split_and!; [lia|done..].
Qed.

(** A pass over a sequence with one edge to [node] removes it. *)
Lemma strip_pass_last node edges :
  (length (weights_to node edges) ≤ 1)%nat →
  Graph.strip (length edges) node edges 0 = Ok (others node edges).
Proof.
  intros Hone. destruct (strip_pass node edges) as (edges' & -> & Ho & Hle).
  f_equal. rewrite <- Ho. symmetry. apply others_id.
  destruct (weights_to node edges'); [done|simpl in Hle; lia].
Qed.

(** ** [contract_node_with_two_edges]: the run *)

Lemma remove_back_edges_run node c g l l' :
  dict_get (Connection.node c) g = Some l →
  Graph.strip (length l) node l 0 = Ok l' →
  Graph.remove_back_edges node c g = (dict_set (Connection.node c) l' g, Ok ()).
Proof.
  intros Hg Hs. unfold Graph.remove_back_edges. run_method.
  rewrite Hg. cbv beta iota. by rewrite Hs.
Qed.

Lemma remove_back_edges_absent node c g :
  dict_get (Connection.node c) g = None →
  Graph.remove_back_edges node c g = (g, Raise (KeyError (Connection.node c))).
Proof.
  intros Hg. unfold Graph.remove_back_edges. run_method. by rewrite Hg.
Qed.

(** Past the two guards the method is the deletion, the two passes and
    the call of [add_edge]. *)
Lemma contract_unfold node c0 c1 g :
  dict_get node g = Some [c0; c1] →
  Graph.contract_node_with_two_edges node g
  = match Graph.remove_back_edges node c0 (dict_del node g) with
    | (g1, Ok _) =>
        match Graph.remove_back_edges node c1 g1 with
        | (g2, Ok _) =>
            Graph.add_edge (Connection.node c0) (Connection.node c1)
              (Connection.distance c0 + Connection.distance c1) g2
        | (g2, Raise e) => (g2, Raise e)
        end
    | (g1, Raise e) => (g1, Raise e)
    end.
Proof.
  intros Hg. unfold Graph.contract_node_with_two_edges. run_method.
  unfold dict_mem. rewrite Hg. cbn [negb]. cbv beta. rewrite Hg.
  cbv beta iota. rewrite bool_decide_eq_true_2 by done. cbn [negb].
  cbv beta. rewrite Hg. cbv beta iota. rewrite Hg. cbv beta iota.
  cbn [Graph.for_each]. run_method.
  destruct (Graph.remove_back_edges node c0 (dict_del node g)) as [g1 [[]|e]];
    [|done].
  destruct (Graph.remove_back_edges node c1 g1) as [g2 [[]|e]]; done.
Qed.

(** ** What the invariant says about a node with two edges *)

Section two_edges.
Context (g : Graph.t) (node : Z) (c0 c1 : conn).
Hypothesis Hok : graph_ok g.
Hypothesis Hnode : dict_get node g = Some [c0; c1].

Lemma back_edges_paired k :
  weights_to node (adj g k) ≡ₚ weights_to k [c0; c1].
Proof. rewrite (ok_paired g Hok k node). by rewrite (adj_get _ _ _ Hnode). Qed.

(** Either both edges are halves of a self-loop or neither is. *)
Lemma self_loops_twinned :
  Connection.node c0 = node ↔ Connection.node c1 = node.
Proof.
  pose proof (ok_loops g Hok node) as [n Hn].
  rewrite (adj_get _ _ _ Hnode), !weights_to_cons in Hn.
  unfold weights_to in Hn. rewrite filter_nil in Hn.
  do 2 case_decide; simpl in Hn; split; intros; done || lia.
Qed.

Lemma neighbour_present c :
  c ∈ [c0; c1] → ∃ l, dict_get (Connection.node c) g = Some l.
Proof.
  intros Hc. destruct c as [v w].
  destruct (graph_ok_undirected g Hok node v w [c0; c1] Hnode Hc)
    as (l & Hl & _). eauto.
Qed.

Lemma no_back_edges k :
  k ≠ Connection.node c0 → k ≠ Connection.node c1 →
  others node (adj g k) = adj g k.
Proof.
  intros H0 H1. apply others_id, Permutation_nil_r.
  rewrite back_edges_paired, !weights_to_cons.
  by rewrite !decide_False by done.
Qed.

Lemma back_edges_count k :
  length (weights_to node (adj g k)) = length (weights_to k [c0; c1]).
Proof. by rewrite back_edges_paired. Qed.

(** The two edges are halves of a self-loop: the first pass looks up
    the node that was just deleted. *)
Lemma contract_self_loops :
  Connection.node c0 = node →
  Graph.contract_node_with_two_edges node g
  = (dict_del node g, Raise (KeyError node)).
Proof.
  intros H0. rewrite (contract_unfold node c0 c1) by done.
  rewrite remove_back_edges_absent; rewrite H0; [done|].
  apply dict_get_del_eq, Hok.
Qed.

(** Neither edge is a self-loop: both passes run and [add_edge] is
    called on the stripped graph. *)
Lemma contract_run :
  Connection.node c0 ≠ node →
  Graph.contract_node_with_two_edges node g
  = Graph.add_edge (Connection.node c0) (Connection.node c1)
      (Connection.distance c0 + Connection.distance c1)
      (stripped node (Connection.node c0) (Connection.node c1) g).
Proof.
  intros H0. assert (Connection.node c1 ≠ node) as H1
    by (by rewrite <- self_loops_twinned).
  destruct (neighbour_present c0) as [lA HA]; [apply list_elem_of_here|].
  destruct (neighbour_present c1) as [lB HB];
    [apply list_elem_of_further, list_elem_of_here|].
  pose proof (back_edges_count (Connection.node c0)) as HnA.
  pose proof (back_edges_count (Connection.node c1)) as HnB.
  rewrite (adj_get _ _ _ HA), !weights_to_cons in HnA.
  rewrite (adj_get _ _ _ HB), !weights_to_cons in HnB.
  rewrite (contract_unfold node c0 c1) by done.
  unfold stripped. rewrite (adj_get _ _ _ HA), (adj_get _ _ _ HB).
  destruct (decide (Connection.node c1 = Connection.node c0)) as [Heq|Hne].
  - rewrite Heq in *. assert (lB = lA) as -> by congruence.
    rewrite decide_True in HnA by done. simpl in HnA.
    destruct (strip_pass node lA) as (l1 & Hs1 & Ho1 & Hle1).
    rewrite (remove_back_edges_run node c0 _ lA l1);
      [|by rewrite dict_get_del_ne|done].
    rewrite (remove_back_edges_run node c1 _ l1 (others node l1));
      [|by rewrite Heq, dict_get_set_eq|apply strip_pass_last; lia].
    by rewrite Heq, Ho1, !dict_set_set.
  - rewrite decide_True in HnA by done.
    rewrite (decide_False (P:=Connection.node c0 = Connection.node c1))
      in HnB by congruence.
    rewrite decide_True in HnB by done.
    simpl in HnA, HnB.
    rewrite (remove_back_edges_run node c0 _ lA (others node lA));
      [|by rewrite dict_get_del_ne|apply strip_pass_last; lia].
    rewrite (remove_back_edges_run node c1 _ lB (others node lB));
      [done| |apply strip_pass_last; lia].
    by rewrite dict_get_set_ne, dict_get_del_ne.
Qed.

(** The edge sequences of the stripped graph. *)
Lemma adj_stripped k :
  Connection.node c0 ≠ node →
  adj (stripped node (Connection.node c0) (Connection.node c1) g) k
  = if decide (k = node) then [] else others node (adj g k).
Proof.
  intros H0. assert (Connection.node c1 ≠ node) as H1
    by (by rewrite <- self_loops_twinned).
  unfold stripped. destruct (decide (k = node)) as [->|Hk].
  - rewrite !adj_set_ne by done. apply adj_del_eq, Hok.
  - destruct (decide (Connection.node c1 = k)) as [<-|HB];
      [by rewrite adj_set_eq|].
    rewrite adj_set_ne by done.
    destruct (decide (Connection.node c0 = k)) as [<-|HA];
      [by rewrite adj_set_eq|].
    rewrite adj_set_ne, adj_del_ne by done.
    symmetry. by apply no_back_edges.
Qed.

Lemma adj_del_self_loops k :
  Connection.node c0 = node →
  adj (dict_del node g) k
  = if decide (k = node) then [] else others node (adj g k).
Proof.
  intros H0. assert (Connection.node c1 = node) as H1
    by (by rewrite <- self_loops_twinned).
  destruct (decide (k = node)) as [->|Hk].
  - apply adj_del_eq, Hok.
  - rewrite adj_del_ne by done. symmetry. apply no_back_edges; congruence.
Qed.

Lemma dict_keys_stripped :
  Connection.node c0 ≠ node →
  dict_keys (stripped node (Connection.node c0) (Connection.node c1) g)
  = filter (λ k, k ≠ node) (dict_keys g).
Proof.
  intros H0. assert (Connection.node c1 ≠ node) as H1
    by (by rewrite <- self_loops_twinned).
  destruct (neighbour_present c0) as [lA HA]; [apply list_elem_of_here|].
  destruct (neighbour_present c1) as [lB HB];
    [apply list_elem_of_further, list_elem_of_here|].
  unfold stripped. rewrite !dict_keys_set.
  unfold dict_mem.
  rewrite dict_get_del_ne, HA by done.
  destruct (decide (Connection.node c0 = Connection.node c1)) as [Heq|Hne].
  - rewrite <- Heq, dict_get_set_eq. apply dict_keys_del, Hok.
  - rewrite dict_get_set_ne, dict_get_del_ne, HB by done.
    apply dict_keys_del, Hok.
Qed.

End two_edges.

(** A graph whose sequences are those of [g] without the edges to
    [node], and without the entry of [node], satisfies the invariant. *)
Lemma graph_ok_without g s node :
  graph_ok g → NoDup (dict_keys s) →
  (∀ k, adj s k = if decide (k = node) then [] else others node (adj g k)) →
  graph_ok s.
Proof.
  intros Hok Hnd Hadj. split; [done|..].
  - intros u v. rewrite !Hadj.
    destruct (decide (u = node)) as [->|Hu], (decide (v = node)) as [->|Hv];
      rewrite ?weights_to_others, ?decide_True, ?decide_False by done;
      [done..|apply Hok].
  - intros u. rewrite Hadj. destruct (decide (u = node)) as [->|Hu].
    + by exists 0%nat.
    + rewrite weights_to_others, decide_False by done. apply Hok.
  - intros k c. rewrite Hadj. destruct (decide (k = node)) as [->|Hk].
    + by intros ?%elem_of_nil.
    + intros [_ Hc]%elem_of_others. by eapply ok_weights.
Qed.

Lemma graph_ok_contract g node :
  graph_ok g → graph_ok (Graph.contract_node_with_two_edges node g).1.
Proof.
  intros Hok.
  destruct (dict_get node g) as [edges|] eqn:Hg;
    [|by rewrite contract_absent].
  destruct (decide (length edges = 2%nat)) as [Hlen|Hlen];
    [|by rewrite (contract_bad_degree g node edges)].
  destruct edges as [|c0 [|c1 [|? ?]]]; try done. clear Hlen.
  destruct (decide (Connection.node c0 = node)) as [H0|H0].
  - rewrite (contract_self_loops g node c0 c1) by done. simpl.
    apply (graph_ok_without g _ node); [done| |].
    + apply dict_keys_del_NoDup, Hok.
    + intros k. by apply (adj_del_self_loops g node c0 c1).
  - rewrite (contract_run g node c0 c1) by done.
    apply graph_ok_add_edge, (graph_ok_without g _ node); [done| |].
    + rewrite (dict_keys_stripped g node c0 c1) by done.
      apply NoDup_filter, Hok.
    + intros k. by apply (adj_stripped g node c0 c1).
Qed.

Lemma for_each_preserves {A} (P : Graph.t → Prop) (body : A → Graph.M unit) l :
  (∀ x g, P g → P (body x g).1) →
  ∀ g, P g → P (Graph.for_each body l g).1.
Proof.
  intros Hbody. induction l as [|x l IH]; intros g Hg; [done|].
  cbn [Graph.for_each]. run_method.
  specialize (Hbody x g Hg). destruct (body x g) as [g1 [[]|e]]; [|done].
  by apply IH.
Qed.

Lemma graph_ok_init connections :
  ∀ g, graph_ok g → graph_ok (Graph.init connections g).1.
Proof.
  destruct connections as [connections|]; simpl; [|done].
  apply for_each_preserves. intros connection g Hok.
  destruct connection as [|c0 [|c1 [|c2 [|? ?]]]]; try done.
  by apply graph_ok_add_edge.
Qed.

(** Every graph a caller can hold satisfies the invariant. *)
Lemma reachable_ok g : reachable g → graph_ok g.
Proof.
  induction 1 as [connections g Hnew|g node1 node2 distance _ IH|g node _ IH].
  - unfold Graph.new in Hnew.
    pose proof (graph_ok_init connections [] graph_ok_empty) as Hok.
    destruct (Graph.init connections []) as [g' [[]|e]]; [|done].
    by injection Hnew as <-.
  - by apply graph_ok_add_edge.
  - by apply graph_ok_contract.
Qed.

(** ** [get_connections] *)

Lemma rows_inner_loop node edges (acc : list (Z * Z * Z)) :
  foldl (λ connections edge,
           connections ++
             [(node, Connection.node edge, Connection.distance edge)])
        acc edges
  = acc ++ rows_of node edges.
Proof.
  revert acc. induction edges as [|edge edges IH]; intros acc; simpl.
  - by rewrite app_nil_r.
  - rewrite IH, <- app_assoc. done.
Qed.

Lemma rows_outer_loop (g : Graph.t) (acc : list (Z * Z * Z)) :
  foldl (λ connections '(node, edges),
           foldl (λ connections edge,
                    connections ++
                      [(node, Connection.node edge, Connection.distance edge)])
                 connections edges)
        acc g
  = acc ++ g ≫= (λ '(node, edges), rows_of node edges).
Proof.
  revert acc. induction g as [|[node edges] g IH]; intros acc; simpl.
  - by rewrite app_nil_r.
  - rewrite rows_inner_loop, IH, <- app_assoc. done.
Qed.

Lemma get_connections_rows g :
  Graph.get_connections g = g ≫= (λ '(node, edges), rows_of node edges).
Proof. unfold Graph.get_connections. by rewrite rows_outer_loop. Qed.

Lemma get_connections_keys g :
  NoDup (dict_keys g) →
  Graph.get_connections g
  = dict_keys g ≫= (λ node, rows_of node (adj g node)).
Proof.
  rewrite get_connections_rows. unfold dict_keys.
  induction g as [|[node edges] g IH]; [done|].
  rewrite fmap_cons. intros [Hnode Hnd]%NoDup_cons.
  rewrite !bind_cons, IH by done. f_equal.
  - unfold adj. simpl. by rewrite decide_True.
  - clear IH Hnd. induction (g.*1) as [|k ks IH]; [done|].
    apply not_elem_of_cons in Hnode as [Hk Hks].
    rewrite !bind_cons, IH by done. f_equal.
    unfold adj. simpl. by rewrite decide_False.
Qed.

Lemma get_connections_add_half g k c :
  Graph.get_connections (add_half k c g)
  ≡ₚ (k, Connection.node c, Connection.distance c) :: Graph.get_connections g.
Proof.
  rewrite !get_connections_rows. unfold add_half.
  induction g as [|[k0 l0] g IH].
  - done.
  - unfold adj. cbn [dict_get dict_set].
    destruct (decide (k0 = k)) as [->|Hne]; simpl.
    + unfold rows_of. rewrite fmap_app. simpl.
      rewrite <- app_assoc. simpl. by rewrite <- Permutation_middle.
    + unfold adj in IH. rewrite IH. by rewrite <- Permutation_middle.
Qed.

Lemma add_edge_returns node1 node2 distance g g' :
  Graph.add_edge node1 node2 distance g = (g', Ok ()) → 0 ≤ distance.
Proof.
  intros H. destruct (decide (distance < 0)); [|lia].
  by rewrite add_edge_negative in H.
Qed.

(** C5.  Every graph that the constructor, [add_edge] and
    [contract_node_with_two_edges] can produce is undirected: an edge to
    [v] of weight [w] in the sequence of [u] has its match, an edge to
    [u] of weight [w], in the sequence of [v].  And when [add_edge(u, v,
    w)] returns, [get_connections()] has gained the two rows [(u, v, w)]
    and [(v, u, w)], each on its own. *)
Theorem undirected_pairing_invariant (g : Graph.t) :
  reachable g →
  undirected g
  ∧ ∀ u v w g',
      Graph.add_edge u v w g = (g', Ok ()) →
      Graph.get_connections g'
        ≡ₚ (u, v, w) :: (v, u, w) :: Graph.get_connections g
      ∧ (u, v, w) ∈ Graph.get_connections g'
      ∧ (v, u, w) ∈ Graph.get_connections g'.
Proof.
  intros Hg. split; [by apply graph_ok_undirected, reachable_ok|].
  intros u v w g' Hadd.
  assert (Graph.get_connections g'
            ≡ₚ (u, v, w) :: (v, u, w) :: Graph.get_connections g) as Hrows.
  { rewrite add_edge_ok in Hadd by (by eapply add_edge_returns).
    injection Hadd as <-.
    rewrite !get_connections_add_half. simpl. apply Permutation_swap. }
  split_and!; [done|rewrite Hrows..].
  - apply list_elem_of_here.
  - apply list_elem_of_further, list_elem_of_here.
Qed.

Lemma undirected_pairing_invariant_witness :
  undirected demo_graph
  ∧ ∀ u v w g',
      Graph.add_edge u v w demo_graph = (g', Ok ()) →
      Graph.get_connections g'
        ≡ₚ (u, v, w) :: (v, u, w) :: Graph.get_connections demo_graph
      ∧ (u, v, w) ∈ Graph.get_connections g'
      ∧ (v, u, w) ∈ Graph.get_connections g'.
Proof.
  apply (undirected_pairing_invariant demo_graph).
  apply (reach_new (Some demo_edges)). vm_compute. reflexivity.
Defined.

(** C8 as worded fails: after [Graph([[5, 0, 1]])] the rows of node 5
    come before the rows of node 0. *)
Lemma get_connections_not_ascending :
  Graph.new (Some [[5; 0; 1]])
  = Ok [(5, [Connection.mk 0 1]); (0, [Connection.mk 5 1])]
  ∧ Graph.get_connections [(5, [Connection.mk 0 1]); (0, [Connection.mk 5 1])]
    = [(5, 0, 1); (0, 5, 1)]
  ∧ ¬ ascending_by_node
        (Graph.get_connections
           [(5, [Connection.mk 0 1]); (0, [Connection.mk 5 1])]).
Proof.
  split_and!; [by vm_compute..|].
  unfold ascending_by_node. simpl. intros H.
  apply StronglySorted_inv in H as [_ H].
  apply Forall_cons in H as [H _]. lia.
Qed.

(** The keys after a successful contraction: the entry of the node is
    gone and no entry is created. *)
Lemma dict_keys_contract g node g' :
  graph_ok g →
  Graph.contract_node_with_two_edges node g = (g', Ok ()) →
  dict_keys g' = filter (λ k, k ≠ node) (dict_keys g).
Proof.
  intros Hok Hrun.
  destruct (dict_get node g) as [edges|] eqn:Hg;
    [|by rewrite contract_absent in Hrun].
  destruct (decide (length edges = 2%nat)) as [Hlen|Hlen];
    [|by rewrite (contract_bad_degree g node edges) in Hrun].
  destruct edges as [|c0 [|c1 [|? ?]]]; try done. clear Hlen.
  destruct (decide (Connection.node c0 = node)) as [H0|H0];
    [by rewrite (contract_self_loops g node c0 c1) in Hrun|].
  assert (Connection.node c1 ≠ node) as H1
    by (by rewrite <- (self_loops_twinned g node c0 c1)).
  rewrite (contract_run g node c0 c1) in Hrun by done.
  pose proof (add_edge_returns _ _ _ _ _ Hrun) as Hd.
  pose proof (dict_keys_add_edge (Connection.node c0) (Connection.node c1) _
    (stripped node (Connection.node c0) (Connection.node c1) g) Hd) as Hkeys.
  rewrite Hrun in Hkeys. simpl in Hkeys. rewrite Hkeys.
  pose proof (dict_keys_stripped g node c0 c1 Hok Hg H0) as Hs.
  assert (∀ c, c ∈ [c0; c1] → Connection.node c ≠ node →
    dict_mem (Connection.node c)
      (stripped node (Connection.node c0) (Connection.node c1) g) = true)
    as Hmem.
  { intros c Hc Hne. apply dict_mem_keys. rewrite Hs.
    apply list_elem_of_filter. split; [done|].
    apply dict_get_keys. destruct (neighbour_present g node c0 c1 Hok Hg c Hc).
    eauto. }
  unfold fresh_keys.
  rewrite (Hmem c0), (Hmem c1);
    [|apply list_elem_of_further, list_elem_of_here|done
     |apply list_elem_of_here|done].
  simpl. by rewrite app_nil_r.
Qed.

(** C8, amended.  In a graph that the public operations can produce,
    [get_connections()] lists one row per stored half-edge, node by node
    in the order of the keys of the adjacency mapping and, within a node,
    in the order of its edge sequence.  The key order is the order of
    creation: [add_edge] puts the endpoints that are new at the end,
    [node1] before [node2], and a contraction that returns takes the
    contracted node out and moves nothing. *)
Theorem get_connections_order (g : Graph.t) :
  reachable g →
  Graph.get_connections g
  = dict_keys g ≫= (λ node, rows_of node (adj g node))
  ∧ (∀ node1 node2 distance g',
       Graph.add_edge node1 node2 distance g = (g', Ok ()) →
       dict_keys g' = dict_keys g ++ fresh_keys node1 node2 g)
  ∧ (∀ node g',
       Graph.contract_node_with_two_edges node g = (g', Ok ()) →
       dict_keys g' = filter (λ k, k ≠ node) (dict_keys g)).
Proof.
  intros Hok%reachable_ok. split_and!.
  - apply get_connections_keys, Hok.
  - intros node1 node2 distance g' Hadd.
    pose proof (add_edge_returns _ _ _ _ _ Hadd) as Hd.
    pose proof (dict_keys_add_edge node1 node2 distance g Hd) as Hkeys.
    by rewrite Hadd in Hkeys.
  - intros node g'. by apply dict_keys_contract.
Qed.

Lemma get_connections_order_witness :
  Graph.get_connections demo_graph
  = dict_keys demo_graph ≫= (λ node, rows_of node (adj demo_graph node))
  ∧ (∀ node1 node2 distance g',
       Graph.add_edge node1 node2 distance demo_graph = (g', Ok ()) →
       dict_keys g' = dict_keys demo_graph ++ fresh_keys node1 node2 demo_graph)
  ∧ (∀ node g',
       Graph.contract_node_with_two_edges node demo_graph = (g', Ok ()) →
       dict_keys g' = filter (λ k, k ≠ node) (dict_keys demo_graph)).
Proof.
  apply (get_connections_order demo_graph).
  apply (reach_new (Some demo_edges)). vm_compute. reflexivity.
Defined.

(** ** Contraction of a node between two neighbours *)

(** The only edge to [x] of a sequence is the one [remove] takes out. *)
Lemma list_remove_only_back_edge x a l :
  weights_to x l = [a] →
  list_remove (Connection.mk x a) l = Ok (others x l).
Proof.
  unfold others. induction l as [|c l IH]; [done|].
  rewrite weights_to_cons. simpl.
  destruct (decide (Connection.node c = x)) as [Hc|Hc].
  - intros [= Ha Hl]. destruct c as [v w]. simpl in *. subst.
    rewrite decide_True by done.
    rewrite filter_cons_False by (by intros ?).
    f_equal. symmetry. by apply others_id.
  - intros Hl. rewrite decide_False by (by intros ->).
    rewrite filter_cons_True by done. by rewrite IH.
Qed.

(** C6 as worded fails when the two edges of the node lead to the same
    neighbour: contracting 0 takes both edges to 0 out of the sequence
    of 1, not exactly one, and already the pass made for the first edge
    of 0 removes the two of them. *)
Lemma contract_twin_edges_removes_two :
  Graph.new (Some twin_edges) = Ok twin_graph
  ∧ dict_get 0 twin_graph = Some [Connection.mk 1 2; Connection.mk 1 3]
  ∧ Graph.contract_node_with_two_edges 0 twin_graph
    = (twin_graph_contracted, Ok ())
  ∧ Graph.strip 3 0 (adj twin_graph 1) 0 = Ok [Connection.mk 9 1]
  ∧ weights_to 0 (adj twin_graph 1) = [2; 3]
  ∧ weights_to 0 (adj twin_graph_contracted 1) = []
  ∧ ¬ one_back_edge_removed 0 (adj twin_graph 1) (adj twin_graph_contracted 1).
Proof. split_and!; [by vm_compute..|]. by vm_compute. Qed.

(** C6, amended.  In a graph that the public operations can produce, let
    the edge sequence of [X] be an edge to [A] of weight [a] followed by
    an edge to [B] of weight [b], with [A] and [B] other than [X].  Then
    the contraction of [X] returns; the entry of [X] is gone and the
    other keys keep their order; every remaining sequence is the old one
    without its edges to [X], in the old order, followed for [A] by a new
    edge to [B] and for [B] by a new edge to [A], both of weight [a + b];
    only the sequences of [A] and [B] had edges to [X].  If [A] and [B]
    differ, each had exactly one, the one that [remove] takes out by
    value; if they are the same node, its sequence had the two edges of
    weights [a] and [b] to [X] and loses both. *)
Theorem contract_splices (g : Graph.t) (X A a B b : Z) :
  reachable g →
  dict_get X g = Some [Connection.mk A a; Connection.mk B b] →
  A ≠ X → B ≠ X →
  ∃ g',
    Graph.contract_node_with_two_edges X g = (g', Ok ())
    ∧ dict_get X g' = None
    ∧ dict_keys g' = filter (λ k, k ≠ X) (dict_keys g)
    ∧ (∀ k, k ≠ X →
         adj g' k
         = others X (adj g k)
           ++ (if decide (k = A) then [Connection.mk B (a + b)] else [])
           ++ (if decide (k = B) then [Connection.mk A (a + b)] else []))
    ∧ (∀ k, k ≠ A → k ≠ B → others X (adj g k) = adj g k)
    ∧ (A ≠ B →
         weights_to X (adj g A) = [a] ∧ weights_to X (adj g B) = [b]
         ∧ list_remove (Connection.mk X a) (adj g A) = Ok (others X (adj g A))
         ∧ list_remove (Connection.mk X b) (adj g B) = Ok (others X (adj g B)))
    ∧ (A = B → weights_to X (adj g A) ≡ₚ [a; b]).
Proof.
  intros Hok%reachable_ok Hg HA HB.
  set (c0 := Connection.mk A a) in *. set (c1 := Connection.mk B b) in *.
  assert (0 ≤ a + b) as Hd.
  { assert (0 ≤ Connection.distance c0 ∧ 0 ≤ Connection.distance c1) as [??].
    { split; apply (ok_weights g Hok X); rewrite (adj_get _ _ _ Hg).
      - apply list_elem_of_here.
      - apply list_elem_of_further, list_elem_of_here. }
    simpl in *. lia. }
  pose proof (contract_run g X c0 c1 Hok Hg HA) as Hrun. simpl in Hrun.
  destruct (Graph.contract_node_with_two_edges X g) as [g' r] eqn:Hc.
  pose proof (adj_add_edge A B (a + b) (stripped X A B g)) as Hadj.
  pose proof (add_edge_ok A B (a + b) (stripped X A B g) Hd) as Hok'.
  rewrite <- Hrun in Hadj, Hok'. injection Hok' as Hg' ->. simpl in Hadj.
  exists g'. split_and!.
  - done.
  - assert (adj g' X = []) as HX.
    { rewrite Hadj, (adj_stripped g X c0 c1) by done.
      by rewrite decide_True, !decide_False by done. }
    pose proof (dict_keys_contract g X g' Hok Hc) as Hkeys.
    apply dict_get_None. rewrite Hkeys.
    by intros [? _]%list_elem_of_filter.
  - by apply dict_keys_contract.
  - intros k Hk. rewrite Hadj, (adj_stripped g X c0 c1) by done.
    by rewrite decide_False by done.
  - intros k HkA HkB. by apply (no_back_edges g X c0 c1).
  - intros Hne.
    pose proof (back_edges_paired g X c0 c1 Hok Hg A) as HpA.
    pose proof (back_edges_paired g X c0 c1 Hok Hg B) as HpB.
    rewrite !weights_to_cons in HpA, HpB. simpl in HpA, HpB.
    rewrite decide_True in HpA by done.
    rewrite (decide_False (P:=B = A)) in HpA by done.
    rewrite (decide_False (P:=A = B)) in HpB by done.
    rewrite decide_True in HpB by done.
    apply Permutation_singleton_r in HpA, HpB.
    split_and!; [done..| |]; by apply list_remove_only_back_edge.
  - intros <-.
    pose proof (back_edges_paired g X c0 c1 Hok Hg A) as HpA.
    rewrite !weights_to_cons in HpA. simpl in HpA.
    by rewrite !decide_True in HpA by done.
Qed.

Lemma contract_splices_witness :
  ∃ g',
    Graph.contract_node_with_two_edges 5 demo_graph = (g', Ok ())
    ∧ dict_get 5 g' = None
    ∧ dict_keys g' = filter (λ k, k ≠ 5) (dict_keys demo_graph)
    ∧ (∀ k, k ≠ 5 →
         adj g' k
         = others 5 (adj demo_graph k)
           ++ (if decide (k = 2) then [Connection.mk 4 (6 + 3)] else [])
           ++ (if decide (k = 4) then [Connection.mk 2 (6 + 3)] else []))
    ∧ (∀ k, k ≠ 2 → k ≠ 4 → others 5 (adj demo_graph k) = adj demo_graph k)
    ∧ (2 ≠ 4 →
         weights_to 5 (adj demo_graph 2) = [6]
         ∧ weights_to 5 (adj demo_graph 4) = [3]
         ∧ list_remove (Connection.mk 5 6) (adj demo_graph 2)
           = Ok (others 5 (adj demo_graph 2))
         ∧ list_remove (Connection.mk 5 3) (adj demo_graph 4)
           = Ok (others 5 (adj demo_graph 4)))
    ∧ (2 = 4 → weights_to 5 (adj demo_graph 2) ≡ₚ [6; 3]).
Proof.
  apply (contract_splices demo_graph 5 2 6 4 3).
  - apply (reach_new (Some demo_edges)). vm_compute. reflexivity.
  - vm_compute. reflexivity.
  - lia.
  - lia.
Defined.

(** * Further properties *)

(** ** The constructor *)

Lemma init_nil g : Graph.init (Some []) g = (g, Ok ()).
Proof. reflexivity. Qed.

Lemma init_cons_ok node1 node2 distance connections g :
  0 ≤ distance →
  Graph.init (Some ([node1; node2; distance] :: connections)) g
  = Graph.init (Some connections) (Graph.add_edge node1 node2 distance g).1.
Proof.
  intros Hd. cbn [Graph.init Graph.for_each]. run_method.
  by rewrite add_edge_ok.
Qed.

Lemma init_cons_negative node1 node2 distance connections g :
  distance < 0 →
  Graph.init (Some ([node1; node2; distance] :: connections)) g
  = (g, Raise (GraphException (NegativeDistance node1 node2 distance))).
Proof.
  intros Hd. cbn [Graph.init Graph.for_each]. run_method.
  by rewrite add_edge_negative.
Qed.

Lemma init_cons_arity connection connections g :
  length connection ≠ 3%nat →
  Graph.init (Some (connection :: connections)) g
  = (g, Raise (GraphException (InvalidEdgeArity connection))).
Proof.
  intros Hlen. cbn [Graph.init Graph.for_each]. run_method.
  by destruct connection as [|c0 [|c1 [|c2 [|? ?]]]].
Qed.

(** The well-formed records in front are all added. *)
Lemma init_app pre rest :
  Forall well_formed_record pre →
  ∀ g, Graph.init (Some (pre ++ rest)) g
       = Graph.init (Some rest) (Graph.init (Some pre) g).1
       ∧ (Graph.init (Some pre) g).2 = Ok ().
Proof.
  induction 1 as [|c pre (a & b & d & -> & Hd) _ IH]; intros g; [done|].
  rewrite <- app_comm_cons, !init_cons_ok by done. apply IH.
Qed.

Lemma init_rows connections :
  Forall well_formed_record connections →
  ∀ g, Graph.get_connections (Graph.init (Some connections) g).1
       ≡ₚ Graph.get_connections g ++ connections ≫= both_rows.
Proof.
  induction 1 as [|c cs (a & b & d & -> & Hd) _ IH]; intros g.
  - simpl. by rewrite app_nil_r.
  - rewrite init_cons_ok, IH, add_edge_ok by done. simpl.
    rewrite !get_connections_add_half. simpl.
    rewrite <- !Permutation_middle. apply Permutation_swap.
Qed.

Lemma record_dec connection :
  well_formed_record connection
  ∨ length connection ≠ 3%nat
  ∨ ∃ node1 node2 distance,
      connection = [node1; node2; distance] ∧ distance < 0.
Proof.
  destruct connection as [|a [|b [|d [|? ?]]]]; try (right; left; done).
  destruct (decide (0 ≤ d)).
  - left. by exists a, b, d.
  - right. right. exists a, b, d. split; [done|lia].
Qed.

Lemma new_ok_well_formed connections g :
  Graph.new (Some connections) = Ok g → Forall well_formed_record connections.
Proof.
  unfold Graph.new. generalize (@nil (Z * list conn)) as g0.
  induction connections as [|c cs IH]; intros g0 H; [done|].
  destruct (record_dec c) as [Hc|[Hc|(a & b & d & -> & Hd)]].
  - constructor; [done|]. destruct Hc as (a & b & d & -> & Hd).
    rewrite init_cons_ok in H by done. by eapply IH.
  - by rewrite init_cons_arity in H.
  - by rewrite init_cons_negative in H.
Qed.

Lemma new_well_formed_ok connections :
  Forall well_formed_record connections →
  Graph.new (Some connections) = Ok (Graph.init (Some connections) []).1.
Proof.
  intros Hwf. unfold Graph.new.
  destruct (init_app connections [] Hwf []) as [_ Hok].
  destruct (Graph.init (Some connections) []) as [g r]. simpl in *. by subst.
Qed.

Lemma new_first_bad pre connection post e :
  Forall well_formed_record pre →
  (∀ g, Graph.init (Some (connection :: post)) g = (g, Raise e)) →
  Graph.new (Some (pre ++ connection :: post)) = Raise e.
Proof.
  intros Hwf Hbad. unfold Graph.new.
  destruct (init_app pre (connection :: post) Hwf []) as [-> _].
  by rewrite Hbad.
Qed.

(** X1.  [Graph()] is the empty graph.  [Graph(connections)] returns a
    graph exactly when every record has three integers the last of which
    is not negative; otherwise it raises for the first record that has
    not: the arity [GraphException] when its length is not 3, the
    negative-distance one when its third integer is negative. *)
Theorem constructor_outcome (connections : list (list Z)) :
  Graph.new None = Ok []
  ∧ ((∃ g, Graph.new (Some connections) = Ok g)
     ↔ Forall well_formed_record connections)
  ∧ (∀ pre connection post,
       connections = pre ++ connection :: post →
       Forall well_formed_record pre → length connection ≠ 3%nat →
       Graph.new (Some connections)
       = Raise (GraphException (InvalidEdgeArity connection)))
  ∧ (∀ pre node1 node2 distance post,
       connections = pre ++ [node1; node2; distance] :: post →
       Forall well_formed_record pre → distance < 0 →
       Graph.new (Some connections)
       = Raise (GraphException (NegativeDistance node1 node2 distance))).
Proof.
  split_and!.
  - done.
  - split.
    + intros [g Hg]. by eapply new_ok_well_formed.
    + intros Hwf. eexists. by apply new_well_formed_ok.
  - intros pre connection post -> Hwf Hlen. apply new_first_bad; [done|].
    intros g. by apply init_cons_arity.
  - intros pre node1 node2 distance post -> Hwf Hd.
    apply new_first_bad; [done|]. intros g. by apply init_cons_negative.
Qed.

Lemma constructor_outcome_witness :
  Graph.new (Some [[0; 1; 4]; [0; 3]; [1; 2; -5]])
  = Raise (GraphException (InvalidEdgeArity [0; 3]))
  ∧ Graph.new (Some [[0; 1; 4]; [1; 2; -5]; [0; 3]])
    = Raise (GraphException (NegativeDistance 1 2 (-5))).
Proof.
  assert (Forall well_formed_record [[0; 1; 4]]) as Hwf.
  { constructor; [|constructor]. exists 0, 1, 4. split; [reflexivity|lia]. }
  split.
  - apply (proj1 (proj2 (proj2 (constructor_outcome
             [[0; 1; 4]; [0; 3]; [1; 2; -5]])))
             [[0; 1; 4]] [0; 3] [[1; 2; -5]]);
      [reflexivity|exact Hwf|simpl; lia].
  - apply (proj2 (proj2 (proj2 (constructor_outcome
             [[0; 1; 4]; [1; 2; -5]; [0; 3]])))
             [[0; 1; 4]] 1 2 (-5) [[0; 3]]);
      [reflexivity|exact Hwf|lia].
Defined.

Lemma both_rows_length connections :
  Forall well_formed_record connections →
  length (connections ≫= both_rows) = (2 * length connections)%nat.
Proof.
  induction 1 as [|c cs (a & b & d & -> & Hd) _ IH]; [done|].
  rewrite bind_cons, length_app, IH. simpl. lia.
Qed.

(** X2.  The rows of a freshly constructed graph are, up to order, the
    records of the edge list each followed by its reverse: two rows per
    record. *)
Theorem constructor_rows (connections : list (list Z)) (g : Graph.t) :
  Graph.new (Some connections) = Ok g →
  Graph.get_connections g ≡ₚ connections ≫= both_rows
  ∧ length (Graph.get_connections g) = (2 * length connections)%nat.
Proof.
  intros Hnew. pose proof (new_ok_well_formed _ _ Hnew) as Hwf.
  rewrite new_well_formed_ok in Hnew by done. injection Hnew as <-.
  pose proof (init_rows connections Hwf []) as Hrows.
  split; [done|]. by rewrite Hrows, <- both_rows_length.
Qed.

Lemma constructor_rows_witness :
  Graph.get_connections demo_graph ≡ₚ demo_edges ≫= both_rows
  ∧ length (Graph.get_connections demo_graph) = (2 * length demo_edges)%nat.
Proof.
  apply (constructor_rows demo_edges demo_graph). vm_compute. reflexivity.
Defined.

(** ** The outcomes of a contraction *)

(** On a graph that satisfies the invariant the method ends in one of
    four ways. *)
Lemma contract_cases g node :
  graph_ok g →
  (dict_get node g = None
   ∧ Graph.contract_node_with_two_edges node g
     = (g, Raise (GraphException (NodeNotFound node))))
  ∨ (∃ edges, dict_get node g = Some edges ∧ length edges ≠ 2%nat
     ∧ Graph.contract_node_with_two_edges node g
       = (g, Raise (GraphException (InvalidDegree node (length edges)))))
  ∨ (∃ c0 c1, dict_get node g = Some [c0; c1]
     ∧ Connection.node c0 = node ∧ Connection.node c1 = node
     ∧ Graph.contract_node_with_two_edges node g
       = (dict_del node g, Raise (KeyError node)))
  ∨ (∃ c0 c1, dict_get node g = Some [c0; c1]
     ∧ Connection.node c0 ≠ node ∧ Connection.node c1 ≠ node
     ∧ 0 ≤ Connection.distance c0 + Connection.distance c1
     ∧ Graph.contract_node_with_two_edges node g
       = Graph.add_edge (Connection.node c0) (Connection.node c1)
           (Connection.distance c0 + Connection.distance c1)
           (stripped node (Connection.node c0) (Connection.node c1) g)).
Proof.
  intros Hok. destruct (dict_get node g) as [edges|] eqn:Hg;
    [|left; split; [done|by apply contract_absent]].
  right. destruct (decide (length edges = 2%nat)) as [Hlen|Hlen];
    [|left; exists edges; split_and!; [done..|by apply contract_bad_degree]].
  right. destruct edges as [|c0 [|c1 [|? ?]]]; try done. clear Hlen.
  pose proof (self_loops_twinned g node c0 c1 Hok Hg) as Htw.
  destruct (decide (Connection.node c0 = node)) as [H0|H0].
  - left. exists c0, c1. split_and!; [done|done|by apply Htw|].
    by apply (contract_self_loops g node c0 c1).
  - right. exists c0, c1. split_and!; [done|done|by rewrite <- Htw| |].
    + assert (0 ≤ Connection.distance c0 ∧ 0 ≤ Connection.distance c1) as [??];
        [|lia].
      split; apply (ok_weights g Hok node); rewrite (adj_get _ _ _ Hg).
      * apply list_elem_of_here.
      * apply list_elem_of_further, list_elem_of_here.
    + by apply (contract_run g node c0 c1).
Qed.

(** X3.  In a graph that the public operations can produce, contracting
    a node whose two stored edges are the halves of a self-loop raises
    [KeyError] for that node, and not before the node's entry has been
    deleted: the failed call leaves the graph without the node, the
    other entries untouched. *)
Theorem contract_self_loop_fails (g : Graph.t) (node : Z) (c0 c1 : conn) :
  reachable g →
  dict_get node g = Some [c0; c1] →
  Connection.node c0 = node ∨ Connection.node c1 = node →
  Graph.contract_node_with_two_edges node g
  = (dict_del node g, Raise (KeyError node))
  ∧ dict_get node (dict_del node g) = None
  ∧ ∀ k, k ≠ node → dict_get k (dict_del node g) = dict_get k g.
Proof.
  intros Hok%reachable_ok Hg Hloop.
  assert (Connection.node c0 = node) as H0.
  { destruct Hloop as [?|?]; [done|].
    by apply (self_loops_twinned g node c0 c1). }
  split_and!.
  - by apply (contract_self_loops g node c0 c1).
  - apply dict_get_del_eq, Hok.
  - intros k Hk. by apply dict_get_del_ne.
Qed.

Lemma contract_self_loop_fails_witness :
  Graph.contract_node_with_two_edges 0
    [(0, [Connection.mk 0 2; Connection.mk 0 2]);
     (1, [Connection.mk 3 1]); (3, [Connection.mk 1 1])]
  = (dict_del 0 [(0, [Connection.mk 0 2; Connection.mk 0 2]);
                 (1, [Connection.mk 3 1]); (3, [Connection.mk 1 1])],
     Raise (KeyError 0))
  ∧ dict_get 0 (dict_del 0 [(0, [Connection.mk 0 2; Connection.mk 0 2]);
                            (1, [Connection.mk 3 1]); (3, [Connection.mk 1 1])])
    = None
  ∧ ∀ k, k ≠ 0 →
      dict_get k (dict_del 0 [(0, [Connection.mk 0 2; Connection.mk 0 2]);
                              (1, [Connection.mk 3 1]); (3, [Connection.mk 1 1])])
      = dict_get k [(0, [Connection.mk 0 2; Connection.mk 0 2]);
                    (1, [Connection.mk 3 1]); (3, [Connection.mk 1 1])].
Proof.
  apply (contract_self_loop_fails _ 0 (Connection.mk 0 2) (Connection.mk 0 2)).
  - apply (reach_new (Some [[0; 0; 2]; [1; 3; 1]])). vm_compute. reflexivity.
  - vm_compute. reflexivity.
  - left. reflexivity.
Defined.

(** X4.  In a graph that the public operations can produce, a
    contraction returns exactly when the node has two stored edges and
    they lead to other nodes; and the only exceptions it raises are the
    two [GraphException]s of its guards and the [KeyError] of the
    self-loop case. *)
Theorem contract_outcome (g : Graph.t) (node : Z) :
  reachable g →
  ((∃ g', Graph.contract_node_with_two_edges node g = (g', Ok ()))
   ↔ ∃ A a B b,
       dict_get node g = Some [Connection.mk A a; Connection.mk B b]
       ∧ A ≠ node ∧ B ≠ node)
  ∧ ∀ g' e,
      Graph.contract_node_with_two_edges node g = (g', Raise e) →
      e = GraphException (NodeNotFound node)
      ∨ (∃ n, e = GraphException (InvalidDegree node n))
      ∨ e = KeyError node.
Proof.
  intros Hok%reachable_ok.
  destruct (contract_cases g node Hok)
    as [[Hg Hrun]|[(edges & Hg & Hlen & Hrun)
       |[(c0 & c1 & Hg & H0 & H1 & Hrun)
        |(c0 & c1 & Hg & H0 & H1 & Hd & Hrun)]]];
    rewrite Hrun; try rewrite add_edge_ok by done; (split; [split|]).
  - by intros [g' ?].
  - intros (A & a & B & b & Hg' & _). congruence.
  - intros g' e [= _ <-]. auto.
  - by intros [g' ?].
  - intros (A & a & B & b & Hg' & _). rewrite Hg in Hg'.
    injection Hg' as ->. done.
  - intros g' e [= _ <-]. eauto.
  - by intros [g' ?].
  - intros (A & a & B & b & Hg' & HA & _). rewrite Hg in Hg'.
    injection Hg' as -> ->. done.
  - intros g' e [= _ <-]. auto.
  - intros _. destruct c0 as [A a], c1 as [B b]. by exists A, a, B, b.
  - eauto.
  - by intros g' e.
Qed.

Lemma contract_outcome_witness :
  ((∃ g', Graph.contract_node_with_two_edges 5 demo_graph = (g', Ok ()))
   ↔ ∃ A a B b,
       dict_get 5 demo_graph = Some [Connection.mk A a; Connection.mk B b]
       ∧ A ≠ 5 ∧ B ≠ 5)
  ∧ ∀ g' e,
      Graph.contract_node_with_two_edges 5 demo_graph = (g', Raise e) →
      e = GraphException (NodeNotFound 5)
      ∨ (∃ n, e = GraphException (InvalidDegree 5 n))
      ∨ e = KeyError 5.
Proof.
  apply (contract_outcome demo_graph 5).
  apply (reach_new (Some demo_edges)). vm_compute. reflexivity.
Defined.

(** ** Rows and single entries *)

Lemma rows_del g k l :
  dict_get k g = Some l →
  Graph.get_connections g
  ≡ₚ rows_of k l ++ Graph.get_connections (dict_del k g).
Proof.
  rewrite !get_connections_rows.
  induction g as [|[k0 l0] g IH]; [done|]. cbn [dict_get dict_del].
  destruct (decide (k0 = k)) as [->|Hne].
  - by intros [= ->].
  - intros Hg. rewrite !bind_cons, IH by done.
    rewrite !app_assoc. apply Permutation_app; [|done].
    apply Permutation_app_comm.
Qed.

Lemma rows_set g k l l' :
  dict_get k g = Some l →
  Graph.get_connections (dict_set k l' g)
  ≡ₚ rows_of k l' ++ Graph.get_connections (dict_del k g).
Proof.
  rewrite !get_connections_rows.
  induction g as [|[k0 l0] g IH]; [done|]. cbn [dict_get dict_del dict_set].
  destruct (decide (k0 = k)) as [->|Hne].
  - by intros [= ->].
  - intros Hg. rewrite !bind_cons, IH by done.
    rewrite !app_assoc. apply Permutation_app; [|done].
    apply Permutation_app_comm.
Qed.

Lemma rows_of_split k x l :
  rows_of k l
  ≡ₚ rows_of k (others x l) ++ ((λ w, (k, x, w)) <$> weights_to x l).
Proof.
  unfold rows_of, others. induction l as [|c l IH]; [done|].
  rewrite weights_to_cons, fmap_cons.
  destruct (decide (Connection.node c = x)) as [Hc|Hc].
  - rewrite filter_cons_False by (by intros ?).
    rewrite fmap_cons, <- Permutation_middle, <- IH. by rewrite Hc.
  - rewrite filter_cons_True by done. rewrite fmap_cons. simpl. by rewrite <- IH.
Qed.

(** Taking the edges to [x] out of the sequence of [k] takes exactly
    their rows out of the listing. *)
Lemma rows_strip g k x l :
  dict_get k g = Some l →
  Graph.get_connections g
  ≡ₚ Graph.get_connections (dict_set k (others x l) g)
     ++ ((λ w, (k, x, w)) <$> weights_to x l).
Proof.
  intros Hg. rewrite (rows_del g k l), (rows_set g k l) by done.
  rewrite (rows_of_split k x l) at 1.
  rewrite <- !app_assoc. apply Permutation_app; [done|].
  apply Permutation_app_comm.
Qed.

Lemma others_others x l : others x (others x l) = others x l.
Proof. unfold others. apply list_filter_filter_l. auto. Qed.

(** The rows before and after the two passes of a contraction. *)
Lemma rows_stripped g node c0 c1 :
  graph_ok g → dict_get node g = Some [c0; c1] →
  Connection.node c0 ≠ node →
  Graph.get_connections g
  ≡ₚ (node, Connection.node c0, Connection.distance c0)
     :: (node, Connection.node c1, Connection.distance c1)
     :: (Connection.node c0, node, Connection.distance c0)
     :: (Connection.node c1, node, Connection.distance c1)
     :: Graph.get_connections
          (stripped node (Connection.node c0) (Connection.node c1) g).
Proof.
  intros Hok Hg H0.
  assert (Connection.node c1 ≠ node) as H1
    by (by rewrite <- (self_loops_twinned g node c0 c1)).
  destruct (neighbour_present g node c0 c1 Hok Hg c0) as [lA HA];
    [apply list_elem_of_here|].
  destruct (neighbour_present g node c0 c1 Hok Hg c1) as [lB HB];
    [apply list_elem_of_further, list_elem_of_here|].
  pose proof (back_edges_paired g node c0 c1 Hok Hg (Connection.node c0)) as HpA.
  pose proof (back_edges_paired g node c0 c1 Hok Hg (Connection.node c1)) as HpB.
  rewrite (adj_get _ _ _ HA), !weights_to_cons in HpA.
  rewrite (adj_get _ _ _ HB), !weights_to_cons in HpB.
  unfold weights_to in HpA at 2 3. unfold weights_to in HpB at 2 3 4.
  rewrite filter_nil in HpA, HpB. simpl in HpA, HpB.
  unfold stripped. rewrite (adj_get _ _ _ HA), (adj_get _ _ _ HB).
  rewrite (rows_del g node [c0; c1]) by done. simpl.
  do 2 apply Permutation_skip.
  rewrite (rows_strip (dict_del node g) (Connection.node c0) node lA)
    by (by rewrite dict_get_del_ne).
  destruct (decide (Connection.node c1 = Connection.node c0)) as [Heq|Hne].
  - rewrite Heq in *. assert (lB = lA) as -> by congruence.
    rewrite decide_True in HpA by done.
    rewrite dict_set_set, HpA. simpl. by rewrite Permutation_app_comm.
  - rewrite decide_True in HpA by done.
    rewrite (decide_False (P:=Connection.node c0 = Connection.node c1))
      in HpB by congruence.
    rewrite decide_True in HpB by done.
    apply Permutation_singleton_r in HpA, HpB.
    rewrite (rows_strip (dict_set _ _ _) (Connection.node c1) node lB)
      by (by rewrite dict_get_set_ne, dict_get_del_ne).
    rewrite HpA, HpB. simpl.
    by rewrite <- !Permutation_cons_append.
Qed.

Lemma rows_add_edge node1 node2 distance g :
  0 ≤ distance →
  Graph.get_connections (Graph.add_edge node1 node2 distance g).1
  ≡ₚ (node1, node2, distance) :: (node2, node1, distance)
     :: Graph.get_connections g.
Proof.
  intros Hd. rewrite add_edge_ok by done. simpl.
  rewrite !get_connections_add_half. simpl. apply Permutation_swap.
Qed.

(** X5.  In a graph that the public operations can produce, let the
    edge sequence of [X] be an edge to [A] of weight [a] followed by an
    edge to [B] of weight [b], with [A] and [B] other than [X].  Then the
    contraction of [X] changes the listing of [get_connections()], up to
    order, in this way only: the four rows of the two edges of [X] are
    replaced by the two rows of the new edge between [A] and [B] of
    weight [a + b]. *)
Theorem contract_rows (g : Graph.t) (X A a B b : Z) :
  reachable g →
  dict_get X g = Some [Connection.mk A a; Connection.mk B b] →
  A ≠ X → B ≠ X →
  ∃ g' kept,
    Graph.contract_node_with_two_edges X g = (g', Ok ())
    ∧ Graph.get_connections g
      ≡ₚ (X, A, a) :: (X, B, b) :: (A, X, a) :: (B, X, b) :: kept
    ∧ Graph.get_connections g'
      ≡ₚ (A, B, a + b) :: (B, A, a + b) :: kept.
Proof.
  intros Hok%reachable_ok Hg HA HB.
  destruct (contract_cases g X Hok)
    as [[Hg' _]|[(edges & Hg' & Hlen & _)
       |[(c0 & c1 & Hg' & H0 & _)|(c0 & c1 & Hg' & H0 & H1 & Hd & Hrun)]]];
    rewrite Hg in Hg'; try done.
  - by injection Hg' as <-.
  - injection Hg' as <- <-. done.
  - injection Hg' as <- <-. simpl in *.
    pose proof (rows_add_edge A B (a + b) (stripped X A B g) Hd) as Hrows.
    rewrite <- Hrun in Hrows.
    pose proof (add_edge_ok A B (a + b) (stripped X A B g) Hd) as Hres.
    rewrite <- Hrun in Hres.
    destruct (Graph.contract_node_with_two_edges X g) as [g' r].
    injection Hres as _ ->. simpl in Hrows.
    exists g', (Graph.get_connections (stripped X A B g)).
    split_and!; [done| |done].
    by apply (rows_stripped g X (Connection.mk A a) (Connection.mk B b)).
Qed.

Lemma contract_rows_witness :
  ∃ g' kept,
    Graph.contract_node_with_two_edges 0 demo_graph = (g', Ok ())
    ∧ Graph.get_connections demo_graph
      ≡ₚ (0, 1, 4) :: (0, 3, 2) :: (1, 0, 4) :: (3, 0, 2) :: kept
    ∧ Graph.get_connections g'
      ≡ₚ (1, 3, 4 + 2) :: (3, 1, 4 + 2) :: kept.
Proof.
  apply (contract_rows demo_graph 0 1 4 3 2).
  - apply (reach_new (Some demo_edges)). vm_compute. reflexivity.
  - vm_compute. reflexivity.
  - lia.
  - lia.
Defined.

(** ** How many back-edges one pass leaves *)

Lemma back_edges_take_S node (l : list conn) n :
  (length (weights_to node (take (S n) l))
   ≤ length (weights_to node (take n l)) + 1)%nat.
Proof.
  destruct (l !! n) as [c|] eqn:Hn.
  - rewrite (take_S_r _ _ _ Hn), weights_to_app, length_app.
    rewrite weights_to_cons. case_decide; simpl; lia.
  - apply lookup_ge_None in Hn. rewrite !take_ge by lia. lia.
Qed.

(** The edges to [node] that remain after the pass are at most those
    the iterator had already passed plus those the pass removes. *)
Lemma strip_passed node fuel :
  ∀ edges idx edges',
    Graph.strip fuel node edges idx = Ok edges' →
    (length edges ≤ idx + fuel)%nat →
    (length (weights_to node edges') + length (weights_to node edges')
     ≤ length (weights_to node (take idx edges))
       + length (weights_to node edges))%nat.
Proof.
  induction fuel as [|fuel IH]; intros edges idx edges'; simpl.
  - intros [= <-] Hlen. rewrite take_ge by lia. lia.
  - destruct (edges !! idx) as [inv|] eqn:Hidx.
    + destruct (decide (Connection.node inv = node)) as [Hinv|Hinv].
      * intros (e1 & He1 & Hs)%res_bind_ok Hlen.
        apply list_remove_split in He1 as (l1 & l2 & -> & -> & Hl1).
        assert (length l1 ≤ idx)%nat as Hp.
        { destruct (decide (idx < length l1)%nat) as [Hlt|]; [|lia].
          rewrite lookup_app_l in Hidx by done.
          by apply list_elem_of_lookup_2 in Hidx. }
        rewrite length_app in Hlen. simpl in Hlen.
        apply IH in Hs; [|rewrite length_app; lia].
        rewrite !take_app_ge, !weights_to_app, !length_app in * by lia.
        rewrite weights_to_cons, decide_True by done. simpl.
        destruct (idx - length l1)%nat as [|m] eqn:Hm.
        -- replace (S idx - length l1)%nat with 1%nat in Hs by lia.
           pose proof (back_edges_take_S node l2 0) as H1.
           rewrite take_0 in *. simpl in *. lia.
        -- replace (S idx - length l1)%nat with (S (S m)) in Hs by lia.
           pose proof (back_edges_take_S node l2 (S m)) as H1.
           pose proof (back_edges_take_S node l2 m) as H2.
           rewrite firstn_cons, weights_to_cons, decide_True by done.
           simpl. lia.
      * intros Hs Hlen. apply IH in Hs; [|lia].
        rewrite (take_S_r _ _ _ Hidx), weights_to_app, length_app in Hs.
        rewrite weights_to_cons, decide_False in Hs by done.
        simpl in Hs. lia.
    + intros [= <-] _. apply lookup_ge_None in Hidx.
      rewrite take_ge by lia. lia.
Qed.

(** X6.  One pass of the loop that removes the edges leading to [node]
    from an edge list while iterating over it: it never raises, it keeps
    every edge that does not lead to [node], in order, and of the edges
    that lead to [node] it leaves at most half; so a list with one such
    edge loses it.  A bound on the number of rounds beyond the length of
    the list changes nothing. *)
Theorem strip_removes_half (node : Z) (edges : list conn) :
  ∃ edges',
    Graph.strip (length edges) node edges 0 = Ok edges'
    ∧ others node edges' = others node edges
    ∧ (2 * length (weights_to node edges')
       ≤ length (weights_to node edges))%nat
    ∧ (length (weights_to node edges) ≤ 1 → edges' = others node edges)%nat
    ∧ ∀ extra,
        Graph.strip (length edges + extra) node edges 0 = Ok edges'.
Proof.
  destruct (strip_pass node edges) as (edges' & Hs & Ho & _).
  exists edges'. split_and!; [done..| | |].
  - pose proof (strip_passed node _ _ _ _ Hs) as H.
    rewrite take_0 in H. simpl in H. lia.
  - intros Hone. rewrite strip_pass_last in Hs by done. congruence.
  - intros extra. by rewrite strip_fuel by lia.
Qed.

(** ** Contraction followed by the baseline query *)

Lemma filter_ne_length (l : list Z) x :
  NoDup l → x ∈ l → S (length (filter (λ k, k ≠ x) l)) = length l.
Proof.
  induction 1 as [|y l Hy Hnd IH]; [by intros ?%elem_of_nil|].
  intros [->|Hx]%elem_of_cons.
  - rewrite filter_cons_False by (by intros ?). simpl. f_equal.
    f_equal. clear IH Hnd. induction l as [|z l IH]; [done|].
    apply not_elem_of_cons in Hy as [? ?].
    rewrite filter_cons_True by done. f_equal. auto.
  - rewrite filter_cons_True by (by intros ->). simpl. f_equal. auto.
Qed.

(** X7.  In a graph that the public operations can produce and whose
    node identifiers are [0 .. len - 1], after a contraction that
    returns, of any node but the highest, [dijkstra_version_1] raises
    for every pair of nodes: the identifiers are no longer the indices
    of its arrays. *)
Theorem contract_breaks_sweep (g : Graph.t) (node : Z) :
  reachable g → dense g →
  (Graph.contract_node_with_two_edges node g).2 = Ok () →
  node ≠ Z.of_nat (length g) - 1 →
  ∀ node1 node2,
    ∃ e, Graph.dijkstra_version_1 node1 node2
           (Graph.contract_node_with_two_edges node g).1 = Raise e.
Proof.
  intros Hok%reachable_ok Hdense Hres Htop node1 node2.
  destruct (Graph.contract_node_with_two_edges node g) as [g' r] eqn:Hrun.
  simpl in *. subst r.
  destruct (Graph.dijkstra_version_1 node1 node2 g') as [d|e] eqn:Hq; [|eauto].
  exfalso. apply dijkstra_version_1_ok_dense in Hq.
  pose proof (dict_keys_contract g node g' Hok Hrun) as Hkeys.
  assert (node ∈ dict_keys g) as Hnode.
  { apply dict_get_keys.
    destruct (contract_cases g node Hok)
      as [[_ H]|[(? & _ & _ & H)|[(? & ? & _ & _ & _ & H)
         |(? & ? & Hg & _)]]]; [congruence..|eauto]. }
  assert (S (length g') = length g) as Hlen.
  { rewrite <- (length_fmap fst g'), <- (length_fmap fst g).
    fold (dict_keys g') (dict_keys g). rewrite Hkeys.
    apply filter_ne_length; [apply Hok|done]. }
  assert (Z.of_nat (length g) - 1 ∈ dict_keys g') as Hin.
  { rewrite Hkeys. apply list_elem_of_filter. split; [congruence|].
    apply Hdense. lia. }
  apply Hq in Hin. lia.
Qed.

Lemma contract_breaks_sweep_witness :
  ∃ e, Graph.dijkstra_version_1 2 3
         (Graph.contract_node_with_two_edges 0 demo_graph).1 = Raise e.
Proof.
  assert (reachable demo_graph) as Hg.
  { apply (reach_new (Some demo_edges)). vm_compute. reflexivity. }
  assert (dense demo_graph) as Hdense.
  { apply (dijkstra_version_1_ok_dense demo_graph 2 3 (Int 8)).
    vm_compute. reflexivity. }
  assert ((Graph.contract_node_with_two_edges 0 demo_graph).2 = Ok ()) as Hrun
    by (vm_compute; reflexivity).
  assert (0 ≠ Z.of_nat (length demo_graph) - 1) as Htop
    by (vm_compute; discriminate).
  exact (contract_breaks_sweep demo_graph 0 Hg Hdense Hrun Htop 2 3).
Defined.

(** ** What every listing satisfies *)

Lemma elem_of_rows g u v w :
  NoDup (dict_keys g) →
  (u, v, w) ∈ Graph.get_connections g ↔ Connection.mk v w ∈ adj g u.
Proof.
  intros Hnd. rewrite get_connections_keys by done.
  rewrite list_elem_of_bind. unfold rows_of. split.
  - intros (k & (e & Heq & He)%list_elem_of_fmap & Hk).
    injection Heq as -> -> ->. by destruct e.
  - intros He. exists u. split.
    + apply list_elem_of_fmap. by exists (Connection.mk v w).
    + apply dict_get_keys. unfold adj in He.
      destruct (dict_get u g); [eauto|by apply elem_of_nil in He].
Qed.

Lemma rows_even g : reachable g → Nat.Even (length (Graph.get_connections g)).
Proof.
  induction 1 as [connections g Hnew|g node1 node2 distance _ IH|g node Hg IH].
  - destruct connections as [connections|]; [|by injection Hnew as <-; exists 0%nat].
    pose proof (new_ok_well_formed _ _ Hnew) as Hwf.
    rewrite new_well_formed_ok in Hnew by done. injection Hnew as <-.
    rewrite (init_rows connections Hwf []). simpl.
    rewrite both_rows_length by done. by exists (length connections).
  - destruct (decide (distance < 0)) as [Hneg|Hpos];
      [by rewrite add_edge_negative|].
    rewrite rows_add_edge by lia. simpl.
    destruct IH as [n Hn]. exists (S n). lia.
  - destruct IH as [n Hn]. apply reachable_ok in Hg.
    destruct (contract_cases g node Hg)
      as [[_ Hrun]|[(? & _ & _ & Hrun)|[(c0 & c1 & Hnode & _ & _ & Hrun)
         |(c0 & c1 & Hnode & H0 & _ & Hd & Hrun)]]]; rewrite Hrun.
    + by exists n.
    + by exists n.
    + simpl. rewrite (rows_del g node [c0; c1]) in Hn by done.
      simpl in Hn. exists (n - 1)%nat. lia.
    + rewrite rows_add_edge by done.
      rewrite (rows_stripped g node c0 c1) in Hn by done.
      simpl in *. exists (n - 1)%nat. lia.
Qed.

(** X8.  In a graph that the public operations can produce, the listing
    of [get_connections()] has an even number of rows, no row has a
    negative weight, the reverse of every row is a row too, and both
    ends of every row are keys of the adjacency mapping. *)
Theorem rows_paired (g : Graph.t) :
  reachable g →
  Nat.Even (length (Graph.get_connections g))
  ∧ ∀ u v w,
      (u, v, w) ∈ Graph.get_connections g →
      0 ≤ w
      ∧ (v, u, w) ∈ Graph.get_connections g
      ∧ u ∈ dict_keys g ∧ v ∈ dict_keys g.
Proof.
  intros Hg. split; [by apply rows_even|].
  apply reachable_ok in Hg. intros u v w Hrow.
  pose proof (ok_keys g Hg) as Hnd.
  apply elem_of_rows in Hrow; [|done].
  assert (∃ l, dict_get u g = Some l ∧ Connection.mk v w ∈ l) as (l & Hu & Hl).
  { unfold adj in Hrow. destruct (dict_get u g) as [l|]; [eauto|].
    by apply elem_of_nil in Hrow. }
  destruct (graph_ok_undirected g Hg u v w l Hu Hl) as (l' & Hv & Hl').
  split_and!.
  - by apply (ok_weights g Hg u (Connection.mk v w)).
  - apply elem_of_rows; [done|]. by rewrite (adj_get _ _ _ Hv).
  - apply dict_get_keys. eauto.
  - apply dict_get_keys. eauto.
Qed.

Lemma rows_paired_witness :
  Nat.Even (length (Graph.get_connections demo_graph))
  ∧ ∀ u v w,
      (u, v, w) ∈ Graph.get_connections demo_graph →
      0 ≤ w
      ∧ (v, u, w) ∈ Graph.get_connections demo_graph
      ∧ u ∈ dict_keys demo_graph ∧ v ∈ dict_keys demo_graph.
Proof.
  apply (rows_paired demo_graph).
  apply (reach_new (Some demo_edges)). vm_compute. reflexivity.
Defined.

(** ** The sweep of [dijkstra_version_1] on dense identifiers *)

Lemma list_getitem_ok {A} (l : list A) i :
  0 ≤ i < Z.of_nat (length l) →
  ∃ x, l !! Z.to_nat i = Some x ∧ list_getitem l i = Ok x.
Proof.
  intros Hi. unfold list_getitem, list_index. rewrite decide_True by done.
  simpl. destruct (lookup_lt_is_Some_2 l (Z.to_nat i)) as [x Hx]; [lia|].
  exists x. by rewrite Hx.
Qed.

Lemma list_setitem_ok {A} (l : list A) i v :
  0 ≤ i < Z.of_nat (length l) →
  list_setitem l i v = Ok (<[Z.to_nat i:=v]> l).
Proof.
  intros Hi. unfold list_setitem, list_index. by rewrite decide_True by done.
Qed.

Lemma walk_nonneg g s v z : graph_ok g → walk g s v z → 0 ≤ z.
Proof.
  intros Hok. induction 1 as [|v v' z w _ IH Hedge]; [done|].
  pose proof (ok_weights g Hok v _ Hedge). simpl in *. lia.
Qed.

Section sweep.
Context (g : Graph.t) (s : Z).
Hypothesis Hok : graph_ok g.
Hypothesis Hdense : dense g.

(** Every stored edge leads to an index of the arrays. *)
Lemma edge_in_range i c :
  c ∈ adj g i → 0 ≤ Connection.node c < Z.of_nat (length g).
Proof.
  intros Hc. apply Hdense, dict_get_keys. destruct c as [v w].
  unfold adj in Hc. destruct (dict_get i g) as [l|] eqn:Hi;
    [|by apply elem_of_nil in Hc].
  destruct (graph_ok_undirected g Hok i v w l Hi Hc) as (l' & Hv & _). eauto.
Qed.

Lemma relax_estimates i D c :
  estimates g s D → 0 ≤ i < Z.of_nat (length g) → c ∈ adj g i →
  (∃ D', Graph.relax i D c = Ok D' ∧ estimates g s D')
  ∨ (Graph.relax i D c = Raise OverflowError
     ∧ float_overflow (Connection.distance c) = true).
Proof.
  intros HD Hi Hc. pose proof HD as (Hlen & Hs & Hwalk).
  pose proof (edge_in_range i c Hc) as Hj.
  pose proof (ok_weights g Hok i c Hc) as Hw.
  destruct (list_getitem_ok D i) as (di & Hdi & Hgi); [lia|].
  destruct (list_getitem_ok D (Connection.node c)) as (dj & Hdj & Hgj); [lia|].
  unfold Graph.relax. rewrite Hgi. cbn [mbind res_bind].
  destruct di as [|z]; cbn [num_add].
  - destruct (float_overflow (Connection.distance c)); [by right|].
    cbn [mbind res_bind]. rewrite Hgj. cbn [mbind res_bind num_lt].
    left. by exists D.
  - cbn [mbind res_bind]. rewrite Hgj. cbn [mbind res_bind].
    destruct (num_lt (Int (z + Connection.distance c)) dj) eqn:Hlt;
      [|left; by exists D].
    rewrite list_setitem_ok by lia.
    left. eexists. split; [done|].
    assert (walk g s i z) as Hwi.
    { rewrite <- (Z2Nat.id i) by lia. by apply Hwalk. }
    pose proof (walk_nonneg g s i z Hok Hwi) as Hz.
    split_and!.
    + by rewrite length_insert.
    + destruct (decide (Z.to_nat (Connection.node c) = Z.to_nat s)) as [Heq|Hne];
        [|by rewrite list_lookup_insert_ne].
      rewrite Heq, Hs in Hdj. injection Hdj as <-. simpl in Hlt.
      apply bool_decide_eq_true in Hlt. lia.
    + intros j z'.
      destruct (decide (Z.to_nat (Connection.node c) = j)) as [<-|Hne].
      * rewrite list_lookup_insert_eq by lia. intros [= <-].
        rewrite Z2Nat.id by lia. apply (walk_edge g s i); [done|].
        by destruct c.
      * rewrite list_lookup_insert_ne by done. apply Hwalk.
Qed.

Lemma relax_loop_estimates i edges :
  (∀ c, c ∈ edges → c ∈ adj g i) → 0 ≤ i < Z.of_nat (length g) →
  ∀ D, estimates g s D →
    (∃ D', for_fold (Graph.relax i) D edges = Ok D' ∧ estimates g s D')
    ∨ (for_fold (Graph.relax i) D edges = Raise OverflowError
       ∧ ∃ c, c ∈ adj g i ∧ float_overflow (Connection.distance c) = true).
Proof.
  intros Hedges Hi. induction edges as [|c edges IH]; intros D HD; simpl.
  - left. by exists D.
  - destruct (relax_estimates i D c HD Hi) as [(D1 & -> & HD1)|[-> Hover]].
    + apply Hedges, list_elem_of_here.
    + simpl. apply IH; [|done]. intros c' Hc'.
      by apply Hedges, list_elem_of_further.
    + right. split; [done|]. exists c. split; [|done].
      apply Hedges, list_elem_of_here.
Qed.

Lemma sweep_estimates i D tight :
  estimates g s D → length tight = length g →
  0 ≤ i < Z.of_nat (length g) →
  (∃ D' tight', Graph.sweep g (D, tight) i = Ok (D', tight')
     ∧ estimates g s D' ∧ length tight' = length g)
  ∨ (Graph.sweep g (D, tight) i = Raise OverflowError
     ∧ ∃ k c, c ∈ adj g k ∧ float_overflow (Connection.distance c) = true).
Proof.
  intros HD Htight Hi. unfold Graph.sweep. simpl.
  rewrite list_setitem_ok by lia. simpl.
  destruct (proj2 (dict_get_keys i g)) as [edges Hedges]; [by apply Hdense|].
  rewrite Hedges. simpl.
  destruct (relax_loop_estimates i edges) with (D := D)
    as [(D' & -> & HD')|[-> (c & Hc & Hover)]]; [|done..| |].
  - intros c Hc. by rewrite (adj_get _ _ _ Hedges).
  - left. exists D', (<[Z.to_nat i:=true]> tight).
    split_and!; [done..|]. by rewrite length_insert.
  - right. eauto.
Qed.

Lemma sweep_loop_estimates l :
  (∀ i, i ∈ l → 0 ≤ i < Z.of_nat (length g)) →
  ∀ D tight, estimates g s D → length tight = length g →
    (∃ D' tight', for_fold (Graph.sweep g) (D, tight) l = Ok (D', tight')
       ∧ estimates g s D')
    ∨ (for_fold (Graph.sweep g) (D, tight) l = Raise OverflowError
       ∧ ∃ k c, c ∈ adj g k ∧ float_overflow (Connection.distance c) = true).
Proof.
  induction l as [|i l IH]; intros Hl D tight HD Htight; simpl.
  - left. by exists D, tight.
  - destruct (sweep_estimates i D tight HD Htight)
      as [(D1 & tight1 & -> & HD1 & Htight1)|[-> Hover]].
    + apply Hl, list_elem_of_here.
    + simpl. apply IH; [|done..]. intros i' Hi'.
      by apply Hl, list_elem_of_further.
    + by right.
Qed.

(** The method on a graph with dense identifiers and both nodes
    present: it returns an entry of an array of estimates, or an edge
    weight is too large to be added to [inf]. *)
Lemma dijkstra_version_1_run node2 :
  s ∈ dict_keys g → node2 ∈ dict_keys g →
  (∃ D d, Graph.dijkstra_version_1 s node2 g = Ok d
     ∧ estimates g s D ∧ D !! Z.to_nat node2 = Some d)
  ∨ (Graph.dijkstra_version_1 s node2 g = Raise OverflowError
     ∧ ∃ k c, c ∈ adj g k ∧ float_overflow (Connection.distance c) = true).
Proof.
  intros Hs Hnode2. unfold Graph.dijkstra_version_1.
  rewrite (proj2 (dict_mem_keys s g) Hs), (proj2 (dict_mem_keys node2 g) Hnode2).
  simpl. apply Hdense in Hs. apply Hdense in Hnode2.
  rewrite list_setitem_ok by (rewrite length_replicate; lia). simpl.
  rewrite length_replicate.
  destruct (sweep_loop_estimates (range (length g)))
    with (D := <[Z.to_nat s:=Int 0]> (replicate (length g) Inf))
         (tight := replicate (length g) false)
    as [(D' & tight' & -> & HD')|[-> Hover]].
  - intros i. by rewrite range_elem_of.
  - split_and!.
    + by rewrite length_insert, length_replicate.
    + apply list_lookup_insert_eq. rewrite length_replicate. lia.
    + intros j z. destruct (decide (Z.to_nat s = j)) as [<-|Hne].
      * rewrite list_lookup_insert_eq by (rewrite length_replicate; lia).
        intros [= <-]. rewrite Z2Nat.id by lia.
        apply walk_start, Hdense. lia.
      * rewrite list_lookup_insert_ne by done.
        by intros [? _]%lookup_replicate.
  - by rewrite length_replicate.
  - simpl. left. destruct HD' as (Hlen & ?).
    destruct (list_getitem_ok D' node2) as (d & Hd & ->); [lia|].
    exists D', d. split_and!; done.
  - by right.
Qed.

End sweep.

Lemma dijkstra_version_1_ok_present g node1 node2 d :
  Graph.dijkstra_version_1 node1 node2 g = Ok d →
  node1 ∈ dict_keys g ∧ node2 ∈ dict_keys g.
Proof.
  unfold Graph.dijkstra_version_1. rewrite <- !dict_mem_keys.
  destruct (dict_mem node1 g); [|done].
  destruct (dict_mem node2 g); done.
Qed.



(** X10.  In a graph that the public operations can produce, whose node
    identifiers are [0 .. len - 1], and for two nodes of the graph,
    [dijkstra_version_1] raises nothing but [OverflowError], and it
    returns a value when no stored weight is so large that adding it to
    [inf] overflows. *)
Theorem dijkstra_version_1_returns (g : Graph.t) (node1 node2 : Z) :
  reachable g → dense g →
  node1 ∈ dict_keys g → node2 ∈ dict_keys g →
  (∀ e, Graph.dijkstra_version_1 node1 node2 g = Raise e → e = OverflowError)
  ∧ ((∀ u v w, (u, v, w) ∈ Graph.get_connections g → float_overflow w = false) →
     ∃ d, Graph.dijkstra_version_1 node1 node2 g = Ok d).
Proof.
  intros Hok%reachable_ok Hdense H1 H2.
  destruct (dijkstra_version_1_run g node1 Hok Hdense node2 H1 H2)
    as [(D & d & Hq & _)|[Hq (k & [v w] & Hc & Hover)]]; rewrite Hq.
  - split; [done|eauto].
  - split; [by intros e [= <-]|]. intros Hsmall.
    apply (elem_of_rows g k v w (ok_keys g Hok)) in Hc.
    apply Hsmall in Hc. simpl in Hover. congruence.
Qed.

Lemma dijkstra_version_1_returns_witness :
  (∀ e, Graph.dijkstra_version_1 4 0 demo_graph = Raise e → e = OverflowError)
  ∧ ((∀ u v w, (u, v, w) ∈ Graph.get_connections demo_graph →
               float_overflow w = false) →
     ∃ d, Graph.dijkstra_version_1 4 0 demo_graph = Ok d).
Proof.
  apply (dijkstra_version_1_returns demo_graph 4 0).
  - apply (reach_new (Some demo_edges)). vm_compute. reflexivity.
  - apply (dijkstra_version_1_ok_dense demo_graph 2 3 (Int 8)).
    vm_compute. reflexivity.
  - apply dict_mem_keys. vm_compute. reflexivity.
  - apply dict_mem_keys. vm_compute. reflexivity.
Defined.

(** ** Routes that the sweep follows *)

Lemma num_le_refl x : num_le x x.
Proof. destruct x; simpl; done. Qed.

Lemma num_le_trans x y z : num_le x y → num_le y z → num_le x z.
Proof. destruct x, y, z; simpl; try done; lia. Qed.

Lemma lowered_refl D : lowered D D.
Proof. intros j x Hj. exists x. split; [done|apply num_le_refl]. Qed.

Lemma lowered_trans D1 D2 D3 : lowered D1 D2 → lowered D2 D3 → lowered D1 D3.
Proof.
  intros H12 H23 j x Hj. destruct (H23 j x Hj) as (x2 & Hj2 & Hle2).
  destruct (H12 j x2 Hj2) as (x1 & Hj1 & Hle1).
  exists x1. split; [done|by eapply num_le_trans].
Qed.

Lemma lowered_Int D' D j z :
  lowered D' D → D !! j = Some (Int z) →
  ∃ z', D' !! j = Some (Int z') ∧ z' ≤ z.
Proof.
  intros Hlow Hj. destruct (Hlow j _ Hj) as ([|z'] & Hj' & Hle); [done|eauto].
Qed.

(** One relaxation lowers entries only, and afterwards the entry of
    the edge's end is at most the entry of [i] plus the weight. *)
Lemma relax_lowers i D c D' :
  0 ≤ i < Z.of_nat (length D) →
  0 ≤ Connection.node c < Z.of_nat (length D) →
  Graph.relax i D c = Ok D' →
  length D' = length D
  ∧ lowered D' D
  ∧ ∀ z, D !! Z.to_nat i = Some (Int z) →
      ∃ z', D' !! Z.to_nat (Connection.node c) = Some (Int z')
            ∧ z' ≤ z + Connection.distance c.
Proof.
  intros Hi Hj.
  destruct (list_getitem_ok D i) as (di & Hdi & Hgi); [lia|].
  destruct (list_getitem_ok D (Connection.node c)) as (dj & Hdj & Hgj); [lia|].
  unfold Graph.relax. rewrite Hgi. cbn [mbind res_bind].
  destruct di as [|z]; cbn [num_add].
  - destruct (float_overflow (Connection.distance c)); [done|].
    cbn [mbind res_bind]. rewrite Hgj. cbn [mbind res_bind num_lt].
    intros [= <-]. split_and!; [done|apply lowered_refl|congruence].
  - cbn [mbind res_bind]. rewrite Hgj. cbn [mbind res_bind].
    destruct (num_lt (Int (z + Connection.distance c)) dj) eqn:Hlt.
    + rewrite list_setitem_ok by lia. intros [= <-]. split_and!.
      * by rewrite length_insert.
      * intros j x Hx.
        destruct (decide (Z.to_nat (Connection.node c) = j)) as [<-|Hne].
        -- rewrite list_lookup_insert_eq by lia. eexists. split; [done|].
           assert (x = dj) as -> by congruence.
           destruct dj as [|b]; simpl in *; [done|].
           apply bool_decide_eq_true in Hlt. lia.
        -- rewrite list_lookup_insert_ne by done. exists x.
           split; [done|apply num_le_refl].
      * intros z0 Hz0. rewrite Hdi in Hz0. injection Hz0 as <-.
        rewrite list_lookup_insert_eq by lia.
        eexists. split; [done|lia].
    + intros [= <-]. split_and!; [done|apply lowered_refl|].
      intros z0 Hz0. rewrite Hdi in Hz0. injection Hz0 as <-.
      destruct dj as [|b]; simpl in Hlt; [done|].
      apply bool_decide_eq_false in Hlt. exists b. split; [done|lia].
Qed.

Lemma relax_loop_lowers i edges :
  ∀ D D',
    0 ≤ i < Z.of_nat (length D) →
    (∀ c, c ∈ edges → 0 ≤ Connection.node c < Z.of_nat (length D)) →
    for_fold (Graph.relax i) D edges = Ok D' →
    length D' = length D
    ∧ lowered D' D
    ∧ ∀ c z, c ∈ edges → D !! Z.to_nat i = Some (Int z) →
        ∃ z', D' !! Z.to_nat (Connection.node c) = Some (Int z')
              ∧ z' ≤ z + Connection.distance c.
Proof.
  induction edges as [|c edges IH]; intros D D' Hi Hedges; simpl.
  - intros [= <-]. split_and!; [done|apply lowered_refl|].
    by intros c z ?%elem_of_nil.
  - intros (D1 & Hc & Hrest)%res_bind_ok.
    apply relax_lowers in Hc as (Hlen1 & Hlow1 & Hend1);
      [|done|by apply Hedges, list_elem_of_here].
    apply IH in Hrest as (Hlen & Hlow & Hend).
    + split_and!; [congruence|by eapply lowered_trans|].
      intros c' z [->|Hc']%elem_of_cons Hz.
      * destruct (Hend1 z Hz) as (z1 & Hz1 & Hle1).
        destruct (lowered_Int _ _ _ _ Hlow Hz1) as (z' & Hz' & Hle).
        exists z'. split; [done|lia].
      * destruct (lowered_Int _ _ _ _ Hlow1 Hz) as (z1 & Hz1 & Hle1).
        destruct (Hend c' z1 Hc' Hz1) as (z' & Hz' & Hle).
        exists z'. split; [done|lia].
    + by rewrite Hlen1.
    + intros c' Hc'. rewrite Hlen1. by apply Hedges, list_elem_of_further.
Qed.

Lemma ascending_inv g s m v z :
  ascending g s m v z →
  (v = s ∧ z = 0)
  ∨ ∃ u z0 w, ascending g s u u z0 ∧ u < m
              ∧ Connection.mk v w ∈ adj g u ∧ z = z0 + w.
Proof.
  destruct 1 as [m|m u v z0 w Hpre Hu Hedge]; [by left|].
  right. by exists u, z0, w.
Qed.

Section ascending_routes.
Context (g : Graph.t) (s : Z).
Hypothesis Hok : graph_ok g.
Hypothesis Hdense : dense g.

Lemma sweep_bounds_routes a D tight D' tight' :
  0 ≤ a < Z.of_nat (length g) → length D = length g →
  bounds_routes g s a D →
  Graph.sweep g (D, tight) a = Ok (D', tight') →
  length D' = length g ∧ bounds_routes g s (a + 1) D'.
Proof.
  intros Ha Hlen Hinv. unfold Graph.sweep. simpl.
  intros (tight1 & _ & (edges & Hedges & (D1 & Hloop & [= <- _])%res_bind_ok)
            %res_bind_ok)%res_bind_ok.
  destruct (dict_get a g) as [l|] eqn:Hl; [|done]. injection Hedges as ->.
  apply relax_loop_lowers in Hloop as (Hlen1 & Hlow & Hend); [|lia|].
  - split; [congruence|]. intros v z Hroute.
    apply ascending_inv in Hroute
      as [[-> ->]|(u & z0 & w & Hpre & Hu & Hedge & ->)].
    + destruct (Hinv s 0 (asc_start g s a)) as (z' & Hz' & Hle).
      destruct (lowered_Int _ _ _ _ Hlow Hz') as (z1 & Hz1 & Hle1).
      exists z1. split; [done|lia].
    + destruct (decide (u = a)) as [->|Hne].
      * destruct (Hinv a z0 Hpre) as (z' & Hz' & Hle).
        rewrite (adj_get _ _ _ Hl) in Hedge.
        destruct (Hend _ z' Hedge Hz') as (z1 & Hz1 & Hle1). simpl in *.
        exists z1. split; [done|lia].
      * assert (ascending g s a v (z0 + w)) as Hold
          by (apply (asc_edge g s a u); [done|lia|done]).
        destruct (Hinv v _ Hold) as (z' & Hz' & Hle).
        destruct (lowered_Int _ _ _ _ Hlow Hz') as (z1 & Hz1 & Hle1).
        exists z1. split; [done|lia].
  - intros c Hc. rewrite Hlen. apply (edge_in_range g Hok Hdense a).
    by rewrite (adj_get _ _ _ Hl).
Qed.

Lemma sweep_loop_bounds_routes n :
  ∀ a D tight D' tight',
    (a + n ≤ length g)%nat → length D = length g →
    bounds_routes g s (Z.of_nat a) D →
    for_fold (Graph.sweep g) (D, tight) (Z.of_nat <$> seq a n) = Ok (D', tight') →
    length D' = length g ∧ bounds_routes g s (Z.of_nat (a + n)) D'.
Proof.
  induction n as [|n IH]; intros a D tight D' tight' Han Hlen Hinv; simpl.
  - intros [= <- _]. by rewrite Nat.add_0_r.
  - intros ([D1 tight1] & Hstep & Hrest)%res_bind_ok.
    destruct (sweep_bounds_routes (Z.of_nat a) D tight D1 tight1)
      as [Hlen1 Hinv1]; [lia|done..|].
    replace (a + S n)%nat with (S a + n)%nat by lia.
    apply (IH (S a) D1 tight1 D' tight'); [lia|done| |done].
    by replace (Z.of_nat (S a)) with (Z.of_nat a + 1) by lia.
Qed.

(** The value returned is at most the weight of every ascending route. *)
Lemma dijkstra_version_1_bounded node2 d z :
  Graph.dijkstra_version_1 s node2 g = Ok d →
  ascending g s (Z.of_nat (length g)) node2 z →
  ∃ z', d = Int z' ∧ z' ≤ z.
Proof.
  intros Hq Hroute.
  destruct (dijkstra_version_1_ok_present _ _ _ _ Hq) as [Hs Hnode2].
  apply Hdense in Hs. apply Hdense in Hnode2.
  revert Hq. unfold Graph.dijkstra_version_1.
  destruct (dict_mem s g); [|done]. destruct (dict_mem node2 g); [|done].
  simpl. rewrite list_setitem_ok by (rewrite length_replicate; lia). simpl.
  rewrite length_replicate.
  intros ([D' tight'] & Hloop & Hd)%res_bind_ok.
  destruct (sweep_loop_bounds_routes (length g) 0
              (<[Z.to_nat s:=Int 0]> (replicate (length g) Inf))
              (replicate (length g) false) D' tight')
    as [Hlen Hinv]; [..|exact Hloop|].
  4: { destruct (Hinv node2 z Hroute) as (z' & Hz' & Hle). simpl in *.
       destruct (list_getitem_ok D' node2) as (x & Hx & Hgx); [lia|].
       exists z'. split; [congruence|done]. }
  - lia.
  - by rewrite length_insert, length_replicate.
  - intros v z0 Hstart.
    apply ascending_inv in Hstart
      as [[-> ->]|(u & z1 & w & Hpre & Hu & Hedge & ->)].
    + exists 0. split; [|done].
      apply list_lookup_insert_eq. rewrite length_replicate. lia.
    + pose proof (edge_in_range g Hok Hdense u _ Hedge) as _.
      assert (u ∈ dict_keys g) as Hkey.
      { apply dict_get_keys. unfold adj in Hedge.
        destruct (dict_get u g); [eauto|by apply elem_of_nil in Hedge]. }
      apply Hdense in Hkey. lia.
Qed.

End ascending_routes.

Lemma dijkstra_version_1_finite_walk g node1 node2 z :
  graph_ok g →
  Graph.dijkstra_version_1 node1 node2 g = Ok (Int z) →
  walk g node1 node2 z.
Proof.
  intros Hok Hq.
  pose proof (dijkstra_version_1_ok_dense _ _ _ _ Hq) as Hdense.
  destruct (dijkstra_version_1_ok_present _ _ _ _ Hq) as [H1 H2].
  destruct (dijkstra_version_1_run g node1 Hok Hdense node2 H1 H2)
    as [(D & d' & Hq' & (Hlen & Hs & Hwalk) & Hd)|[Hq' _]]; [|congruence].
  assert (d' = Int z) as -> by congruence.
  apply Hwalk in Hd. by rewrite Z2Nat.id in Hd by (apply Hdense in H2; lia).
Qed.

(** X11.  In a graph that the public operations can produce, the value
    that [dijkstra_version_1] returns is finite and at most the weight of
    every route from [node1] to [node2] on which the nodes that are left
    have increasing identifiers; in particular it is at most the weight
    of every edge between [node1] and [node2]; and when such a route is a
    shortest one, the value is the shortest distance. *)
Theorem dijkstra_version_1_ascending (g : Graph.t) (node1 node2 : Z) (d : num) :
  reachable g →
  Graph.dijkstra_version_1 node1 node2 g = Ok d →
  (∀ z, ascending g node1 (Z.of_nat (length g)) node2 z →
        ∃ z', d = Int z' ∧ z' ≤ z)
  ∧ (∀ w, (node1, node2, w) ∈ Graph.get_connections g →
          ∃ z', d = Int z' ∧ z' ≤ w)
  ∧ (∀ z, ascending g node1 (Z.of_nat (length g)) node2 z →
          (∀ z', walk g node1 node2 z' → z ≤ z') → d = Int z).
Proof.
  intros Hok%reachable_ok Hq.
  pose proof (dijkstra_version_1_ok_dense _ _ _ _ Hq) as Hdense.
  destruct (dijkstra_version_1_ok_present _ _ _ _ Hq) as [H1 _].
  assert (∀ z, ascending g node1 (Z.of_nat (length g)) node2 z →
               ∃ z', d = Int z' ∧ z' ≤ z) as Hbound.
  { intros z. by apply dijkstra_version_1_bounded. }
  split_and!; [done| |].
  - intros w Hrow. apply elem_of_rows in Hrow; [|apply Hok].
    apply Hbound.
    apply (asc_edge g node1 _ node1 node2 0 w); [constructor| |done].
    apply Hdense in H1. lia.
  - intros z Hroute Hbest. destruct (Hbound z Hroute) as (z' & -> & Hle).
    apply dijkstra_version_1_finite_walk in Hq; [|done].
    apply Hbest in Hq. f_equal. lia.
Qed.

Lemma dijkstra_version_1_ascending_witness :
  (∀ z, ascending demo_graph 0 (Z.of_nat (length demo_graph)) 4 z →
        ∃ z', Int 10 = Int z' ∧ z' ≤ z)
  ∧ (∀ w, (0, 4, w) ∈ Graph.get_connections demo_graph →
          ∃ z', Int 10 = Int z' ∧ z' ≤ w)
  ∧ (∀ z, ascending demo_graph 0 (Z.of_nat (length demo_graph)) 4 z →
          (∀ z', walk demo_graph 0 4 z' → z ≤ z') → Int 10 = Int z).
Proof.
  apply (dijkstra_version_1_ascending demo_graph 0 4 (Int 10)).
  - apply (reach_new (Some demo_edges)). vm_compute. reflexivity.
  - vm_compute. reflexivity.
Defined.

(** ** Dense identifiers and [add_edge] *)

Lemma dict_length_keys {V} (d : dict V) : length (dict_keys d) = length d.
Proof. unfold dict_keys. by rewrite length_fmap. Qed.

(** X12.  On a graph whose node identifiers are [0 .. len - 1], an
    [add_edge] that returns keeps them so exactly when the entries it
    creates are for the next unused identifiers: none, [len], or [len]
    and [len + 1]. *)
Theorem add_edge_keeps_dense (g : Graph.t) (node1 node2 distance : Z) :
  dense g → 0 ≤ distance →
  dense (Graph.add_edge node1 node2 distance g).1
  ↔ (fresh_keys node1 node2 g = []
     ∨ fresh_keys node1 node2 g = [Z.of_nat (length g)]
     ∨ fresh_keys node1 node2 g
       = [Z.of_nat (length g); Z.of_nat (length g) + 1]
     ∨ fresh_keys node1 node2 g
       = [Z.of_nat (length g) + 1; Z.of_nat (length g)]).
Proof.
  intros Hdense Hd.
  pose proof (dict_keys_add_edge node1 node2 distance g Hd) as Hkeys.
  pose proof (dict_length_keys (Graph.add_edge node1 node2 distance g).1) as Hlen.
  rewrite Hkeys, length_app, dict_length_keys in Hlen.
  assert (∀ x, x ∈ fresh_keys node1 node2 g → x ∉ dict_keys g) as Hfresh.
  { intros x Hx Hin%dict_mem_keys. unfold fresh_keys in Hx.
    apply elem_of_app in Hx as [Hx|Hx].
    - destruct (dict_mem node1 g) eqn:H1; [by apply elem_of_nil in Hx|].
      apply list_elem_of_singleton in Hx. congruence.
    - destruct (dict_mem node2 g) eqn:H2; simpl in Hx;
        [by apply elem_of_nil in Hx|].
      case_bool_decide; [by apply elem_of_nil in Hx|].
      apply list_elem_of_singleton in Hx. congruence. }
  assert (fresh_keys node1 node2 g = []
          ∨ (∃ x, fresh_keys node1 node2 g = [x])
          ∨ (∃ x y, fresh_keys node1 node2 g = [x; y] ∧ x ≠ y)) as Hshape.
  { unfold fresh_keys. destruct (dict_mem node1 g), (dict_mem node2 g); simpl;
      eauto; case_bool_decide; simpl; eauto 10. }
  unfold dense in Hdense |- *. rewrite Hkeys, <- Hlen. split.
  - intros Hdense'.
    destruct Hshape as [->|[[x Hx]|(x & y & Hxy & Hne)]]; [by left|..].
    + right. left. rewrite Hx in *.
      assert (x ∈ dict_keys g ++ [x]) as Hin
        by (apply elem_of_app; right; apply list_elem_of_here).
      apply Hdense' in Hin. simpl in Hin.
      assert (x ∉ dict_keys g) as Hout by (apply Hfresh, list_elem_of_here).
      rewrite Hdense in Hout. f_equal. lia.
    + right. right. rewrite Hxy in *.
      assert (x ∈ dict_keys g ++ [x; y]) as Hinx
        by (apply elem_of_app; right; apply list_elem_of_here).
      assert (y ∈ dict_keys g ++ [x; y]) as Hiny
        by (apply elem_of_app; right;
            apply list_elem_of_further, list_elem_of_here).
      apply Hdense' in Hinx, Hiny. simpl in Hinx, Hiny.
      assert (x ∉ dict_keys g) as Houtx by (apply Hfresh, list_elem_of_here).
      assert (y ∉ dict_keys g) as Houty
        by (apply Hfresh, list_elem_of_further, list_elem_of_here).
      rewrite Hdense in Houtx, Houty.
      destruct (decide (x = Z.of_nat (length g))) as [->|Hx].
      * left. do 2 f_equal. lia.
      * right. assert (x = Z.of_nat (length g) + 1) as -> by lia.
        do 2 f_equal. lia.
  - intros [Hf|[Hf|[Hf|Hf]]] i; rewrite Hf, elem_of_app, Hdense; simpl;
      rewrite ?elem_of_cons, ?elem_of_nil; lia.
Qed.

Lemma add_edge_keeps_dense_witness :
  dense (Graph.add_edge 5 6 2 demo_graph).1
  ↔ (fresh_keys 5 6 demo_graph = []
     ∨ fresh_keys 5 6 demo_graph = [Z.of_nat (length demo_graph)]
     ∨ fresh_keys 5 6 demo_graph
       = [Z.of_nat (length demo_graph); Z.of_nat (length demo_graph) + 1]
     ∨ fresh_keys 5 6 demo_graph
       = [Z.of_nat (length demo_graph) + 1; Z.of_nat (length demo_graph)]).
Proof.
  apply (add_edge_keeps_dense demo_graph 5 6 2).
  - apply (dijkstra_version_1_ok_dense demo_graph 2 3 (Int 8)).
    vm_compute. reflexivity.
  - lia.
Defined.

(** ** The rendering of a connection *)

Lemma format_d_inj z1 z2 :
  Connection.format_d z1 = Connection.format_d z2 → z1 = z2.
Proof.
  unfold Connection.format_d. intros Heq.
  assert (∀ z, NilZero.int_of_string (NilZero.string_of_int (Z.to_int z))
               = Some (Z.to_int z)) as Hparse.
  { intros z. apply NilZero.isi; destruct z; simpl; try done;
      intros [= H]; by apply DecimalPos.Unsigned.to_uint_nonnil in H. }
  pose proof (Hparse z1) as H1. rewrite Heq, Hparse in H1.
  injection H1 as H1. by rewrite <- (DecimalZ.of_to z1), <- H1, DecimalZ.of_to.
Qed.

Lemma uint_digits c d :
  c = ","%char ∨ c = " "%char →
  occurs c (NilEmpty.string_of_uint d) = false.
Proof. intros [->| ->]; induction d; simpl; done. Qed.

Lemma format_d_digits c z :
  c = ","%char ∨ c = " "%char → occurs c (Connection.format_d z) = false.
Proof.
  intros Hc. unfold Connection.format_d.
  assert (∀ d, occurs c (NilZero.string_of_uint d) = false) as Hu.
  { intros d. destruct d; try apply (uint_digits c _ Hc).
    by destruct Hc as [->| ->]. }
  destruct (Z.to_int z) as [d|d]; simpl; [done|].
  rewrite Hu. by destruct Hc as [->| ->].
Qed.

(** A character that occurs in neither prefix marks the same place. *)
Lemma split_at_char c s1 :
  ∀ s2 r1 r2,
    occurs c s1 = false → occurs c s2 = false →
    s1 +:+ String c r1 = s2 +:+ String c r2 →
    s1 = s2 ∧ r1 = r2.
Proof.
  induction s1 as [|a s1 IH]; intros [|b s2] r1 r2; simpl.
  - by intros _ _ [= ->].
  - intros _ [Hb _]%orb_false_elim [= -> _]. by rewrite Ascii.eqb_refl in Hb.
  - intros [Ha _]%orb_false_elim _ [= -> _]. by rewrite Ascii.eqb_refl in Ha.
  - intros [_ H1]%orb_false_elim [_ H2]%orb_false_elim [= -> Heq].
    destruct (IH _ _ _ H1 H2 Heq) as [-> ->]. done.
Qed.

(** X13.  [__str__] and [__repr__] of a connection give the same text,
    and the text determines the connection: two connections with the
    same rendering have the same node and the same distance. *)
Theorem str_determines_connection (c1 c2 : conn) :
  Connection.str c1 = Connection.repr c1
  ∧ (Connection.str c1 = Connection.str c2 → c1 = c2).
Proof.
  split; [done|]. destruct c1 as [n1 d1], c2 as [n2 d2].
  unfold Connection.str. simpl. intros [= Heq].
  apply split_at_char in Heq as [Hn Heq];
    [|apply format_d_digits; by left..].
  injection Heq as Heq.
  apply split_at_char in Heq as [Hd _];
    [|apply format_d_digits; by right..].
  by rewrite (format_d_inj _ _ Hn), (format_d_inj _ _ Hd).
Qed.

Lemma str_determines_connection_witness :
  Connection.str (Connection.mk 1 (-4)) = "< Node: 1, Distance: -4 >"%string
  ∧ (Connection.str (Connection.mk 1 (-4)) = Connection.str (Connection.mk 1 (-4))
     → Connection.mk 1 (-4) = Connection.mk 1 (-4)).
Proof.
  split; [vm_compute; reflexivity|].
  apply (proj2 (str_determines_connection (Connection.mk 1 (-4))
                  (Connection.mk 1 (-4)))).
Defined.

(** ** Contraction and routes *)

Section contracted.
Context (g g' : Graph.t) (X : Z) (c0 c1 : conn).
Hypothesis Hok : graph_ok g.
Hypothesis HX : dict_get X g = Some [c0; c1].
Hypothesis H0 : Connection.node c0 ≠ X.
Hypothesis Hrun : Graph.contract_node_with_two_edges X g = (g', Ok ()).

Lemma contracted_weight :
  0 ≤ Connection.distance c0 ∧ 0 ≤ Connection.distance c1.
Proof.
  split; apply (ok_weights g Hok X); rewrite (adj_get _ _ _ HX).
  - apply list_elem_of_here.
  - apply list_elem_of_further, list_elem_of_here.
Qed.

Lemma contracted_adj k :
  adj g' k
  = (if decide (k = X) then [] else others X (adj g k))
    ++ (if decide (k = Connection.node c0)
        then [Connection.mk (Connection.node c1)
                (Connection.distance c0 + Connection.distance c1)]
        else [])
    ++ (if decide (k = Connection.node c1)
        then [Connection.mk (Connection.node c0)
                (Connection.distance c0 + Connection.distance c1)]
        else []).
Proof.
  destruct contracted_weight as [Hw0 Hw1].
  pose proof (contract_run g X c0 c1 Hok HX H0) as Hrun'.
  pose proof (adj_add_edge (Connection.node c0) (Connection.node c1)
    (Connection.distance c0 + Connection.distance c1)
    (stripped X (Connection.node c0) (Connection.node c1) g) k) as Hadj.
  rewrite <- Hrun', Hrun in Hadj. simpl in Hadj.
  rewrite Hadj by lia. by rewrite (adj_stripped g X c0 c1).
Qed.

Lemma contracted_keys k : k ∈ dict_keys g' ↔ k ∈ dict_keys g ∧ k ≠ X.
Proof.
  rewrite (dict_keys_contract g X g' Hok Hrun), list_elem_of_filter. tauto.
Qed.

(** An edge of the contracted graph is an old edge or the new one. *)
Lemma contracted_edge v v' w :
  Connection.mk v' w ∈ adj g' v →
  v ≠ X ∧ v' ≠ X
  ∧ (Connection.mk v' w ∈ adj g v
     ∨ (w = Connection.distance c0 + Connection.distance c1
        ∧ ((v = Connection.node c0 ∧ v' = Connection.node c1)
           ∨ (v = Connection.node c1 ∧ v' = Connection.node c0)))).
Proof.
  assert (Connection.node c1 ≠ X) as H1
    by (by rewrite <- (self_loops_twinned g X c0 c1)).
  rewrite contracted_adj, !elem_of_app. intros [Hold|[Hnew|Hnew]].
  - destruct (decide (v = X)); [by apply elem_of_nil in Hold|].
    apply elem_of_others in Hold as [Hv' Hold]. simpl in Hv'. auto.
  - destruct (decide (v = Connection.node c0)) as [->|];
      [|by apply elem_of_nil in Hnew].
    apply list_elem_of_singleton in Hnew. injection Hnew as -> ->. auto 10.
  - destruct (decide (v = Connection.node c1)) as [->|];
      [|by apply elem_of_nil in Hnew].
    apply list_elem_of_singleton in Hnew. injection Hnew as -> ->. auto 10.
Qed.

(** The back-edge that matches an edge of [X]. *)
Lemma contracted_back_edge c :
  c ∈ [c0; c1] →
  Connection.mk X (Connection.distance c) ∈ adj g (Connection.node c).
Proof.
  intros Hc. destruct c as [v w].
  destruct (graph_ok_undirected g Hok X v w [c0; c1] HX Hc) as (l & Hl & Hin).
  simpl. by rewrite (adj_get _ _ _ Hl).
Qed.

(** A route of the contracted graph is a route of the old graph, the
    new edge taken through [X]. *)
Lemma contracted_no_shortcut s v z : walk g' s v z → walk g s v z.
Proof.
  induction 1 as [Hs|v v' z w _ IH Hedge].
  - apply walk_start. by apply contracted_keys in Hs as [? _].
  - apply contracted_edge in Hedge
      as (_ & _ & [Hold|[-> [[-> ->]|[-> ->]]]]).
    + by apply (walk_edge g s v).
    + replace (z + (Connection.distance c0 + Connection.distance c1))
        with (z + Connection.distance c0 + Connection.distance c1) by lia.
      apply (walk_edge g s X).
      * apply (walk_edge g s (Connection.node c0)); [done|].
        apply contracted_back_edge, list_elem_of_here.
      * rewrite (adj_get _ _ _ HX). destruct c1.
        apply list_elem_of_further, list_elem_of_here.
    + replace (z + (Connection.distance c0 + Connection.distance c1))
        with (z + Connection.distance c1 + Connection.distance c0) by lia.
      apply (walk_edge g s X).
      * apply (walk_edge g s (Connection.node c1)); [done|].
        apply contracted_back_edge, list_elem_of_further, list_elem_of_here.
      * rewrite (adj_get _ _ _ HX). destruct c0. apply list_elem_of_here.
Qed.

(** An old edge between two remaining nodes is still there. *)
Lemma contracted_keeps_edge v v' w :
  v ≠ X → v' ≠ X →
  Connection.mk v' w ∈ adj g v → Connection.mk v' w ∈ adj g' v.
Proof.
  intros Hv Hv' Hedge. rewrite contracted_adj, decide_False by done.
  apply elem_of_app. left. by apply elem_of_others.
Qed.

(** The new edge, from the end of one edge of [X] to the end of the
    other. *)
Lemma contracted_new_edge c c' :
  c ∈ [c0; c1] → c' ∈ [c0; c1] →
  Connection.node c ≠ Connection.node c' →
  Connection.mk (Connection.node c')
    (Connection.distance c + Connection.distance c')
  ∈ adj g' (Connection.node c).
Proof.
  intros Hc Hc' Hne.
  assert ((c = c0 ∧ c' = c1) ∨ (c = c1 ∧ c' = c0)) as [[-> ->]|[-> ->]].
  { apply elem_of_cons in Hc as [->|Hc]; apply elem_of_cons in Hc' as [->|Hc'];
      try apply list_elem_of_singleton in Hc;
      try apply list_elem_of_singleton in Hc'; subst; auto; done. }
  - rewrite contracted_adj, !elem_of_app. right. left.
    rewrite decide_True by done. apply list_elem_of_here.
  - rewrite contracted_adj, !elem_of_app. right. right.
    rewrite decide_True by done.
    rewrite (Z.add_comm (Connection.distance c1)). apply list_elem_of_here.
Qed.

(** A route of the old graph from a remaining node: to another
    remaining node there is a route in the contracted graph that is not
    longer; to [X] there is one to a neighbour of [X] that, with the edge
    from that neighbour, is not longer. *)
Lemma contracted_no_detour s v z :
  s ≠ X → walk g s v z →
  (v ≠ X → ∃ z', z' ≤ z ∧ walk g' s v z')
  ∧ (v = X → ∃ c z0, c ∈ [c0; c1] ∧ walk g' s (Connection.node c) z0
                     ∧ z0 + Connection.distance c ≤ z).
Proof.
  intros Hs. induction 1 as [Hkey|v v' z w Hwalk [IHv IHX] Hedge].
  - split; [|done]. intros _. exists 0. split; [done|].
    by apply walk_start, contracted_keys.
  - pose proof (ok_weights g Hok v _ Hedge) as Hw. simpl in Hw.
    destruct (decide (v = X)) as [->|Hv].
    + destruct (IHX eq_refl) as (c & z0 & Hc & Hwalk' & Hle).
      rewrite (adj_get _ _ _ HX) in Hedge.
      pose proof (ok_weights g Hok X c) as Hwc.
      rewrite (adj_get _ _ _ HX) in Hwc. specialize (Hwc Hc).
      assert (v' ≠ X) as Hv'.
      { assert (Connection.node c1 ≠ X) as H1
          by (by rewrite <- (self_loops_twinned g X c0 c1)).
        apply elem_of_cons in Hedge as [Heq|Hedge];
          [|apply list_elem_of_singleton in Hedge as Heq];
          intros ->; by rewrite <- Heq in *. }
      split; [|done]. intros _.
      destruct (decide (Connection.node c = v')) as [<-|Hne].
      * exists z0. split; [lia|done].
      * exists (z0 + (Connection.distance c + w)). split; [lia|].
        apply (walk_edge g' s (Connection.node c)); [done|].
        by apply (contracted_new_edge c (Connection.mk v' w)).
    + destruct (IHv Hv) as (z' & Hle & Hwalk').
      destruct (decide (v' = X)) as [->|Hv'].
      * split; [done|]. intros _.
        exists (Connection.mk v w), z'. split_and!; [|done|simpl; lia].
        destruct (graph_ok_undirected g Hok v X w (adj g v)) as (l & Hl & Hin);
          [|done|congruence].
        unfold adj in *. destruct (dict_get v g); [done|].
        by apply elem_of_nil in Hedge.
      * split; [|done]. intros _. exists (z' + w). split; [lia|].
        apply (walk_edge g' s v); [done|].
        by apply contracted_keeps_edge.
Qed.

End contracted.

(** X14.  In a graph that the public operations can produce, a
    contraction that returns preserves the routes between the remaining
    nodes as far as their weights go: every route of the new graph is a
    route of the old graph of the same weight, and for every route of
    the old graph between two remaining nodes the new graph has one that
    is not longer.  So the shortest distances between them are the
    same. *)
Theorem contract_preserves_distances (g g' : Graph.t) (X s v : Z) :
  reachable g →
  Graph.contract_node_with_two_edges X g = (g', Ok ()) →
  (∀ z, walk g' s v z → walk g s v z)
  ∧ (s ≠ X → v ≠ X →
     ∀ z, walk g s v z → ∃ z', z' ≤ z ∧ walk g' s v z').
Proof.
  intros Hok%reachable_ok Hrun.
  destruct (contract_cases g X Hok)
    as [[_ H]|[(? & _ & _ & H)|[(? & ? & _ & _ & _ & H)
       |(c0 & c1 & HX & H0 & _)]]]; [congruence..|].
  split.
  - intros z. by apply (contracted_no_shortcut g g' X c0 c1).
  - intros Hs Hv z Hwalk.
    by apply (contracted_no_detour g g' X c0 c1 Hok HX H0 Hrun s v z Hs Hwalk).
Qed.

Lemma contract_preserves_distances_witness :
  (∀ z, walk (Graph.contract_node_with_two_edges 0 demo_graph).1 1 4 z →
        walk demo_graph 1 4 z)
  ∧ (1 ≠ 0 → 4 ≠ 0 →
     ∀ z, walk demo_graph 1 4 z →
          ∃ z', z' ≤ z
                ∧ walk (Graph.contract_node_with_two_edges 0 demo_graph).1 1 4 z').
Proof.
  apply (contract_preserves_distances demo_graph _ 0 1 4).
  - apply (reach_new (Some demo_edges)). vm_compute. reflexivity.
  - vm_compute. reflexivity.
Defined.
